(** * Status polling of the video-generation frontend

    A shallow embedding of the two polling loops of the frontend:

    - [Api]: [ApiService.pollVideoStatus] of [Frontend/src/services/api.ts],
      a promise driven by a chain of [setTimeout] calls;
    - [Progress]: the polling effect of
      [Frontend/src/components/VideoGenerationProgress.tsx], driven by
      [setInterval].

    Both run on the single-threaded JavaScript event loop.  An execution
    is therefore a sequence of loop turns, each started by one event of the
    environment (a pending read completes, a timer fires); a turn runs to
    completion before the next one starts.  The models are transition
    functions over explicit states, and every observable effect of a turn
    (a read being issued, a callback being invoked, a timer being armed) is
    appended to a trace kept in the state.

    Numbers.  [Api] takes [maxAttempts] as an integer (any sign) and the
    delays as exact rationals, [Math.pow] and the product being exact
    arithmetic.  [Js] is [pollVideoStatus] once more with [maxAttempts],
    [interval] and the delays as the doubles they are (NaN, the infinities,
    fractions), [Math.pow] and the product of doubles being parameters; for
    an integer [maxAttempts] and exact arithmetic the two models coincide
    ([JsProps.api_is_js_exact]).  Attempt counters are natural numbers: the
    double [attempts] counts exactly up to 2^53.

    Callbacks ([onProgress], [onComplete], [onError]) are observers: they
    are recorded in the trace and return normally. *)

From Stdlib Require Import String List ZArith QArith Qminmax Qpower Qround Lia Bool.
From Stdlib Require Import Ascii.
From Stdlib Require DecimalString DecimalNat DecimalFacts.
Import ListNotations.

Local Open Scope string_scope.
Local Open Scope list_scope.

(** A JavaScript [Error] value, as far as the code looks at it. *)
Record JsError := mkError { message : string }.

(** [a || d] on an optional string: [undefined] and the empty string are
    falsy. *)
Definition or_else (a : option string) (d : string) : string :=
  match a with
  | Some s => if (s =? "")%string then d else s
  | None => d
  end.

(** How many elements of a list satisfy a boolean test. *)
Definition count {A} (p : A -> bool) (l : list A) : nat :=
  length (filter p l).

Module Api.

(** [interface VideoStatusResponse]. *)
Record VideoStatusResponse := {
  status : string;
  question_id : string;
  progress : option Q;
  current_step : option string;
  estimated_completion : option string;
  video_file : option string;
  error : option string
}.

(** What [await this.getVideoStatus(questionId)] yields: the decoded body,
    or the exception thrown by [request] (non-2xx status, network error,
    undecodable body). *)
Inductive ReadResult :=
| Fulfilled (s : VideoStatusResponse)
| Thrown (e : JsError).

(** How the promise returned by [pollVideoStatus] settled. *)
Inductive Settlement :=
| Resolved (s : VideoStatusResponse)
| Rejected (e : JsError).

(** Observable effects of [pollVideoStatus], in the order they happen. *)
Inductive Action :=
| GetVideoStatus                       (* this.getVideoStatus(questionId) *)
| OnProgress (s : VideoStatusResponse) (* onProgress(status) *)
| Resolve (s : VideoStatusResponse)    (* resolve(status) *)
| Reject (e : JsError)                 (* reject(...) *)
| SetTimeout (delay : Q).              (* setTimeout(poll, delay) *)

(** The closure state of one call of [pollVideoStatus]: the captured
    variable [attempts], the state of the promise, the reads awaiting their
    response, the armed timers, and the trace so far. *)
Record PollState := mkPoll {
  attempts : nat;
  settled : option Settlement;
  inflight : nat;
  timers : nat;
  trace : list Action
}.

(** Events of the environment. *)
Inductive Event :=
| ReadDone (r : ReadResult)   (* the pending getVideoStatus settles *)
| TimerFired.                 (* an armed setTimeout expires *)

Definition is_read (a : Action) : bool :=
  match a with GetVideoStatus => true | _ => false end.

Definition is_settle (a : Action) : bool :=
  match a with Resolve _ | Reject _ => true | _ => false end.

Definition is_progress (a : Action) : bool :=
  match a with OnProgress _ => true | _ => false end.

Definition delay_of (a : Action) : option Q :=
  match a with SetTimeout d => Some d | _ => None end.

(** The delays handed to [setTimeout], oldest first. *)
Fixpoint delays (t : list Action) : list Q :=
  match t with
  | [] => []
  | a :: t' =>
      match delay_of a with
      | Some d => d :: delays t'
      | None => delays t'
      end
  end.

Definition emit (a : Action) (st : PollState) : PollState :=
  mkPoll (attempts st) (settled st) (inflight st) (timers st)
         (trace st ++ [a]).

(** [resolve] and [reject] of a promise: only the first call settles it. *)
Definition settle (o : Settlement) (st : PollState) : PollState :=
  mkPoll (attempts st)
         (match settled st with None => Some o | Some o' => Some o' end)
         (inflight st) (timers st) (trace st).

Definition do_resolve (s : VideoStatusResponse) (st : PollState) :=
  settle (Resolved s) (emit (Resolve s) st).

Definition do_reject (e : JsError) (st : PollState) :=
  settle (Rejected e) (emit (Reject e) st).

Definition do_setTimeout (d : Q) (st : PollState) : PollState :=
  let st := emit (SetTimeout d) st in
  mkPoll (attempts st) (settled st) (inflight st) (S (timers st)) (trace st).

Definition settle_action (o : Settlement) : Action :=
  match o with Resolved s => Resolve s | Rejected e => Reject e end.

(** The statuses handed to [onProgress], oldest first. *)
Fixpoint progressed (t : list Action) : list VideoStatusResponse :=
  match t with
  | [] => []
  | OnProgress s :: t' => s :: progressed t'
  | _ :: t' => progressed t'
  end.

(** The statuses of the reads that succeeded, in the order the responses
    arrived. *)
Fixpoint fulfilled (evs : list Event) : list VideoStatusResponse :=
  match evs with
  | [] => []
  | ReadDone (Fulfilled s) :: evs' => s :: fulfilled evs'
  | _ :: evs' => fulfilled evs'
  end.

Section PollVideoStatus.

(** The parameters [maxAttempts] (default 60) and [interval]
    (default 5000).  [questionId] only names the endpoint that is read, and
    a call of [onProgress] is the action [OnProgress]. *)
Variable maxAttempts : Z.
Variable interval : Q.

(** [Math.min(interval * Math.pow(1.5, attempts), 30000)], in exact
    arithmetic; [Js.backoffInterval] has it on doubles. *)
Definition backoffInterval (attempts : nat) : Q :=
  Qmin (interval * (3 # 2) ^ Z.of_nat attempts) 30000.

(** [poll], from its entry to the [await]: count the attempt and issue
    the read. *)
Definition poll_enter (st : PollState) : PollState :=
  let st := emit GetVideoStatus st in
  mkPoll (S (attempts st)) (settled st) (S (inflight st)) (timers st)
         (trace st).

(** [poll], from the [await] to its end. *)
Definition poll_resume (r : ReadResult) (st : PollState) : PollState :=
  match r with
  | Fulfilled s =>
      let st := emit (OnProgress s) st in
      if (status s =? "completed")%string then do_resolve s st
      else if (status s =? "failed")%string then
        do_reject (mkError (or_else (error s) "Video generation failed")) st
      else if (maxAttempts <=? Z.of_nat (attempts st))%Z then
        do_reject (mkError "Video generation timeout") st
      else do_setTimeout interval st
  | Thrown e =>
      if (maxAttempts <=? Z.of_nat (attempts st))%Z then do_reject e st
      else do_setTimeout (backoffInterval (attempts st)) st
  end.

(** One turn of the event loop.  [None]: the event cannot happen in this
    state (no read is pending, no timer is armed). *)
Definition step (st : PollState) (ev : Event) : option PollState :=
  match ev with
  | ReadDone r =>
      match inflight st with
      | O => None
      | S n =>
          Some (poll_resume r
                  (mkPoll (attempts st) (settled st) n (timers st)
                          (trace st)))
      end
  | TimerFired =>
      match timers st with
      | O => None
      | S n =>
          Some (poll_enter
                  (mkPoll (attempts st) (settled st) (inflight st) n
                          (trace st)))
      end
  end.

(** The state when [pollVideoStatus] returns its promise:
    [let attempts = 0] and the executor has called [poll()] once. *)
Definition start : PollState :=
  poll_enter (mkPoll 0 None 0 0 []).

Fixpoint exec (st : PollState) (evs : list Event) : option PollState :=
  match evs with
  | [] => Some st
  | ev :: evs' =>
      match step st ev with
      | Some st' => exec st' evs'
      | None => None
      end
  end.

Inductive reachable : PollState -> Prop :=
| reach_start : reachable start
| reach_step st ev st' :
    reachable st -> step st ev = Some st' -> reachable st'.

(** The run in which the i-th read gets the i-th result of [rs] and
    every armed timer expires.  Results left over when the promise has
    settled are never asked for. *)
Fixpoint run_from (st : PollState) (rs : list ReadResult) : PollState :=
  match rs with
  | [] => st
  | r :: rs' =>
      match step st (ReadDone r) with
      | None => st
      | Some st1 =>
          match step st1 TimerFired with
          | None => st1
          | Some st2 => run_from st2 rs'
          end
      end
  end.

Definition pollVideoStatus (rs : list ReadResult) : PollState :=
  run_from start rs.

(** The ceiling on reads for an integer [maxAttempts]: [maxAttempts], and
    one read even when [maxAttempts] is not positive.  [Js.limit] gives the
    integer, if any, that stands for an arbitrary number. *)
Definition ceiling : nat := Z.to_nat (Z.max 1 maxAttempts).

(** What holds between any two turns of the loop. *)
Definition Inv (st : PollState) : Prop :=
  (1 <= attempts st)%nat /\
  count is_read (trace st) = attempts st /\
  (Z.of_nat (attempts st) <= Z.max 1 maxAttempts)%Z /\
  match settled st with
  | None =>
      (inflight st + timers st = 1)%nat /\
      count is_settle (trace st) = 0%nat /\
      (timers st = 1%nat -> (Z.of_nat (attempts st) < maxAttempts)%Z)
  | Some o =>
      inflight st = 0%nat /\ timers st = 0%nat /\
      exists pre, trace st = pre ++ [settle_action o] /\
                  count is_settle pre = 0%nat
  end.

(** A state is at rest when no timer is armed: the promise has settled,
    or a read is pending. *)
Definition at_rest (st : PollState) : Prop := reachable st /\ timers st = 0%nat.

End PollVideoStatus.

End Api.

(** * [pollVideoStatus] with its numbers as JavaScript has them

    [maxAttempts: number] and [interval: number] can be any double.  The
    control flow is that of [Api]; what changes is the comparison
    [attempts >= maxAttempts] and the delay handed to [setTimeout]. *)
Module Js.

(** The value of a double: NaN, an infinity, or a finite rational.
    Comparisons of doubles and [Math.min] are exact on these values. *)
Inductive Number :=
| NaN
| PosInf
| NegInf
| Finite (q : Q).

(** The counter [attempts] as a number. *)
Definition of_nat (n : nat) : Number := Finite (inject_Z (Z.of_nat n)).

(** [a <= b]; false when an operand is NaN.  [a >= b] is [leb b a]. *)
Definition leb (a b : Number) : bool :=
  match a, b with
  | NaN, _ | _, NaN => false
  | NegInf, _ => true
  | _, PosInf => true
  | PosInf, _ => false
  | _, NegInf => false
  | Finite x, Finite y => Qle_bool x y
  end.

(** [Math.min(a, b)]: NaN when an argument is NaN. *)
Definition Math_min (a b : Number) : Number :=
  match a, b with
  | NaN, _ | _, NaN => NaN
  | _, _ => if leb a b then a else b
  end.

Inductive Action :=
| GetVideoStatus
| OnProgress (s : Api.VideoStatusResponse)
| Resolve (s : Api.VideoStatusResponse)
| Reject (e : JsError)
| SetTimeout (delay : Number).           (* setTimeout(poll, delay) *)

Record PollState := mkPoll {
  attempts : nat;
  settled : option Api.Settlement;
  inflight : nat;
  timers : nat;
  trace : list Action
}.

Definition is_read (a : Action) : bool :=
  match a with GetVideoStatus => true | _ => false end.

Definition delay_of (a : Action) : option Number :=
  match a with SetTimeout d => Some d | _ => None end.

(** The delays handed to [setTimeout], oldest first. *)
Fixpoint delays (t : list Action) : list Number :=
  match t with
  | [] => []
  | a :: t' =>
      match delay_of a with
      | Some d => d :: delays t'
      | None => delays t'
      end
  end.

Definition emit (a : Action) (st : PollState) : PollState :=
  mkPoll (attempts st) (settled st) (inflight st) (timers st)
         (trace st ++ [a]).

Definition settle (o : Api.Settlement) (st : PollState) : PollState :=
  mkPoll (attempts st)
         (match settled st with None => Some o | Some o' => Some o' end)
         (inflight st) (timers st) (trace st).

Definition do_resolve (s : Api.VideoStatusResponse) (st : PollState) :=
  settle (Api.Resolved s) (emit (Resolve s) st).

Definition do_reject (e : JsError) (st : PollState) :=
  settle (Api.Rejected e) (emit (Reject e) st).

Definition do_setTimeout (d : Number) (st : PollState) : PollState :=
  let st := emit (SetTimeout d) st in
  mkPoll (attempts st) (settled st) (inflight st) (S (timers st)) (trace st).

Section PollVideoStatus.

Variable maxAttempts : Number.
Variable interval : Number.

(** [Math.pow], which ECMAScript leaves implementation-approximated, and
    the product of two doubles: whatever the engine computes. *)
Variable Math_pow : Number -> Number -> Number.
Variable times : Number -> Number -> Number.

(** [Math.min(interval * Math.pow(1.5, attempts), 30000)]. *)
Definition backoffInterval (attempts : nat) : Number :=
  Math_min (times interval (Math_pow (Finite (3 # 2)) (of_nat attempts)))
           (Finite 30000).

(** The delay the next read is scheduled with after the result [r] of
    read number [attempts], when the run goes on. *)
Definition delay_after (r : Api.ReadResult) (attempts : nat) : Number :=
  match r with
  | Api.Fulfilled _ => interval
  | Api.Thrown _ => backoffInterval attempts
  end.

Definition poll_enter (st : PollState) : PollState :=
  let st := emit GetVideoStatus st in
  mkPoll (S (attempts st)) (settled st) (S (inflight st)) (timers st)
         (trace st).

Definition poll_resume (r : Api.ReadResult) (st : PollState) : PollState :=
  match r with
  | Api.Fulfilled s =>
      let st := emit (OnProgress s) st in
      if (Api.status s =? "completed")%string then do_resolve s st
      else if (Api.status s =? "failed")%string then
        do_reject (mkError (or_else (Api.error s) "Video generation failed")) st
      else if leb maxAttempts (of_nat (attempts st)) then
        do_reject (mkError "Video generation timeout") st
      else do_setTimeout interval st
  | Api.Thrown e =>
      if leb maxAttempts (of_nat (attempts st)) then do_reject e st
      else do_setTimeout (backoffInterval (attempts st)) st
  end.

Definition step (st : PollState) (ev : Api.Event) : option PollState :=
  match ev with
  | Api.ReadDone r =>
      match inflight st with
      | O => None
      | S n =>
          Some (poll_resume r
                  (mkPoll (attempts st) (settled st) n (timers st)
                          (trace st)))
      end
  | Api.TimerFired =>
      match timers st with
      | O => None
      | S n =>
          Some (poll_enter
                  (mkPoll (attempts st) (settled st) (inflight st) n
                          (trace st)))
      end
  end.

Definition start : PollState :=
  poll_enter (mkPoll 0 None 0 0 []).

(** The run in which the i-th read gets the i-th result of [rs] and every
    armed timer expires. *)
Fixpoint run_from (st : PollState) (rs : list Api.ReadResult) : PollState :=
  match rs with
  | [] => st
  | r :: rs' =>
      match step st (Api.ReadDone r) with
      | None => st
      | Some st1 =>
          match step st1 Api.TimerFired with
          | None => st1
          | Some st2 => run_from st2 rs'
          end
      end
  end.

Definition pollVideoStatus (rs : list Api.ReadResult) : PollState :=
  run_from start rs.

End PollVideoStatus.

(** An integer [m] such that [attempts >= maxAttempts] holds exactly when
    [attempts >= m]; none when the comparison is never true. *)
Definition limit (maxAttempts : Number) : option Z :=
  match maxAttempts with
  | NaN | PosInf => None
  | NegInf => Some 0%Z
  | Finite q => Some (Qceiling q)
  end.

(** A read that does not report ['completed'] or ['failed']. *)
Definition keeps_polling (r : Api.ReadResult) : bool :=
  match r with
  | Api.Fulfilled s =>
      negb ((Api.status s =? "completed")%string ||
            (Api.status s =? "failed")%string)
  | Api.Thrown _ => true
  end.

(** A delay that is [interval], NaN, or at most 30000. *)
Definition capped_or_base (interval d : Number) : Prop :=
  d = interval \/ d = NaN \/ leb d (Finite 30000) = true.

(** Exact arithmetic on finite numbers, for the comparison with [Api]. *)
Definition exact_times (a b : Number) : Number :=
  match a, b with
  | Finite x, Finite y => Finite (x * y)
  | _, _ => NaN
  end.

Definition exact_pow (b e : Number) : Number :=
  match b, e with
  | Finite x, Finite y => Finite (x ^ Qfloor y)
  | _, _ => NaN
  end.

Definition of_action (a : Api.Action) : Action :=
  match a with
  | Api.GetVideoStatus => GetVideoStatus
  | Api.OnProgress s => OnProgress s
  | Api.Resolve s => Resolve s
  | Api.Reject e => Reject e
  | Api.SetTimeout d => SetTimeout (Finite d)
  end.

Definition of_state (st : Api.PollState) : PollState :=
  mkPoll (Api.attempts st) (Api.settled st) (Api.inflight st) (Api.timers st)
         (map of_action (Api.trace st)).

End Js.

Module Progress.

Import Api.

(** What one run of [pollStatus] gets from
    [fetch(`http://localhost:8000/api/video-status/${questionId}`)]. *)
Inductive FetchResult :=
| OkJson (s : VideoStatusResponse)  (* response.ok, body decoded *)
| NotOk                             (* response.ok is false (non-2xx) *)
| Throws (e : JsError).             (* fetch or response.json() rejected *)

(** Observable effects of the component's effects. *)
Inductive Action :=
| Fetch (id : nat)                   (* fetch(...) issued by pollStatus *)
| SetInterval (ms : Z)               (* setInterval(pollStatus, ms) *)
| ClearInterval                      (* clearInterval(interval) *)
| SetStatus (s : VideoStatusResponse)
| SetIsPolling (b : bool)
| OnComplete (s : VideoStatusResponse)
| OnError (msg : string)
| ConsoleError (e : JsError).

(** The component between two turns: the React state [status],
    [isPolling] and [elapsedTime], the period of the polling timer while it
    is armed, the reads awaiting their response (oldest first), the number
    of reads issued so far, and the trace. *)
Record State := mkState {
  status : option VideoStatusResponse;
  isPolling : bool;
  elapsedTime : nat;
  interval : option Z;
  inflight : list nat;
  issued : nat;
  trace : list Action
}.

Inductive Event :=
| Tick                                (* the 2000 ms interval fires *)
| Response (id : nat) (r : FetchResult) (* read [id] settles *)
| Second                              (* the 1000 ms elapsed-time interval fires *)
| Cleanup                             (* the component unmounts: effect cleanup *)
| Rerun.                              (* a dependency of the polling effect
                                         ([questionId], [onComplete], [onError])
                                         changed: its cleanup, then its body *)

Definition is_fetch (a : Action) : bool :=
  match a with Fetch _ => true | _ => false end.

Definition is_terminal (a : Action) : bool :=
  match a with OnComplete _ | OnError _ => true | _ => false end.

(** Anything the parent or the user can see: state updates and
    callbacks. *)
Definition is_notification (a : Action) : bool :=
  match a with
  | SetStatus _ | SetIsPolling _ | OnComplete _ | OnError _ => true
  | _ => false
  end.

Definition emit (a : Action) (st : State) : State :=
  mkState (status st) (isPolling st) (elapsedTime st) (interval st)
          (inflight st) (issued st) (trace st ++ [a]).

Definition setStatus (s : VideoStatusResponse) (st : State) : State :=
  let st := emit (SetStatus s) st in
  mkState (Some s) (isPolling st) (elapsedTime st) (interval st)
          (inflight st) (issued st) (trace st).

Definition setIsPolling (b : bool) (st : State) : State :=
  let st := emit (SetIsPolling b) st in
  mkState (status st) b (elapsedTime st) (interval st)
          (inflight st) (issued st) (trace st).

(** [pollStatus], from its entry to [await fetch(...)]. *)
Definition pollStatus_enter (st : State) : State :=
  let st := emit (Fetch (issued st)) st in
  mkState (status st) (isPolling st) (elapsedTime st) (interval st)
          (inflight st ++ [issued st]) (S (issued st)) (trace st).

(** [pollStatus], from the [await] to its end. *)
Definition pollStatus_resume (r : FetchResult) (st : State) : State :=
  match r with
  | OkJson statusData =>
      let st := setStatus statusData st in
      if (Api.status statusData =? "completed")%string then
        emit (OnComplete statusData) (setIsPolling false st)
      else if (Api.status statusData =? "failed")%string then
        emit (OnError (or_else (error statusData) "Video generation failed"))
             (setIsPolling false st)
      else st
  | NotOk => st
  | Throws e => emit (ConsoleError e) st
  end.

Definition remove_id (id : nat) (l : list nat) : list nat :=
  filter (fun x => negb (x =? id)%nat) l.

(** One turn of the event loop; [None] when the event cannot happen.
    [interval st] is [None] once the component has unmounted: no tick and
    no run of the effect follows, while the reads in flight are still
    answered.  [Second] is a tick of the elapsed-time timer; the model
    takes that timer as armed exactly while [isPolling] holds (React clears
    it when it commits [setIsPolling(false)]). *)
Definition step (st : State) (ev : Event) : option State :=
  match ev with
  | Tick =>
      match interval st with
      | Some _ => Some (pollStatus_enter st)
      | None => None
      end
  | Response id r =>
      if existsb (Nat.eqb id) (inflight st) then
        Some (pollStatus_resume r
                (mkState (status st) (isPolling st) (elapsedTime st)
                         (interval st) (remove_id id (inflight st))
                         (issued st) (trace st)))
      else None
  | Second =>
      if isPolling st then
        Some (mkState (status st) (isPolling st) (S (elapsedTime st))
                      (interval st) (inflight st) (issued st) (trace st))
      else None
  | Cleanup =>
      match interval st with
      | Some _ =>
          let st := emit ClearInterval st in
          Some (mkState (status st) (isPolling st) (elapsedTime st) None
                        (inflight st) (issued st) (trace st))
      | None => None
      end
  | Rerun =>
      match interval st with
      | Some _ =>
          let st := emit ClearInterval st in
          let st := pollStatus_enter st in
          let st := emit (SetInterval 2000) st in
          Some (mkState (status st) (isPolling st) (elapsedTime st)
                        (Some 2000%Z) (inflight st) (issued st) (trace st))
      | None => None
      end
  end.

(** The state after the polling effect has run on mount:
    [pollStatus(); const interval = setInterval(pollStatus, 2000)]. *)
Definition mount : State :=
  let st := pollStatus_enter (mkState None true 0 None [] 0 []) in
  let st := emit (SetInterval 2000) st in
  mkState (status st) (isPolling st) (elapsedTime st) (Some 2000%Z)
          (inflight st) (issued st) (trace st).

Fixpoint exec (st : State) (evs : list Event) : option State :=
  match evs with
  | [] => Some st
  | ev :: evs' =>
      match step st ev with
      | Some st' => exec st' evs'
      | None => None
      end
  end.

Inductive reachable : State -> Prop :=
| reach_mount : reachable mount
| reach_step st ev st' :
    reachable st -> step st ev = Some st' -> reachable st'.

(** The run in which every read is answered before the next tick: the
    i-th read gets the i-th result of [rs], and a tick follows each
    answer. *)
Fixpoint run_from (st : State) (rs : list FetchResult) : State :=
  match rs with
  | [] => st
  | r :: rs' =>
      match step st (Response (issued st - 1) r) with
      | None => st
      | Some st1 =>
          match step st1 Tick with
          | None => st1
          | Some st2 => run_from st2 rs'
          end
      end
  end.

Definition run (rs : list FetchResult) : State := run_from mount rs.

Definition is_cleanup (ev : Event) : bool :=
  match ev with Cleanup => true | _ => false end.

(** The events that call [pollStatus]: a tick of the timer and a run of
    the effect. *)
Definition issues_read (ev : Event) : bool :=
  match ev with Tick | Rerun => true | _ => false end.

(** A read that is not a decoded 2xx answer. *)
Definition is_failure (r : FetchResult) : bool :=
  match r with OkJson _ => false | NotOk | Throws _ => true end.

(** The statuses handed to [setStatus], oldest first. *)
Fixpoint statuses_set (t : list Action) : list VideoStatusResponse :=
  match t with
  | [] => []
  | SetStatus s :: t' => s :: statuses_set t'
  | _ :: t' => statuses_set t'
  end.

(** The decoded bodies of the responses, in the order they arrived. *)
Fixpoint bodies (evs : list Event) : list VideoStatusResponse :=
  match evs with
  | [] => []
  | Response _ (OkJson s) :: evs' => s :: bodies evs'
  | _ :: evs' => bodies evs'
  end.

End Progress.

(** Inputs used in the examples below. *)
Module Samples.

Import Api.

Definition default_maxAttempts : Z := 60.
Definition default_interval : Q := 5000.

Definition mkStatus (st : string) (p : Q) (file err : option string)
  : VideoStatusResponse :=
  Build_VideoStatusResponse st "Q1" (Some p) None None file err.

Definition queued0 := mkStatus "queued" 0 None None.
Definition running (p : Q) := mkStatus "running" p None None.
Definition completed100 := mkStatus "completed" 100 (Some "video_Q1.mp4") None.
Definition failed_crash :=
  mkStatus "failed" 30 None (Some "render engine crashed").

Definition err503 := mkError "API Error: 503 Service Unavailable".
Definition errNet := mkError "Failed to fetch".

End Samples.

(** The vocabulary of the specification, for the statements that are
    compared with the code. *)
Module Spec.

Import Api.

(** A status is terminal when it is ['completed'] or ['failed']. *)
Definition terminal_status (s : VideoStatusResponse) : bool :=
  (status s =? "completed")%string || (status s =? "failed")%string.

(** The number of transport failures at the end of a history of read
    results (oldest first): the consecutive-failure count. *)
Fixpoint consecutive_failures_rev (h : list ReadResult) : nat :=
  match h with
  | Thrown _ :: h' => S (consecutive_failures_rev h')
  | _ => O
  end.

Definition consecutive_failures (h : list ReadResult) : nat :=
  consecutive_failures_rev (rev h).

(** The retry delay as the specification words it: base interval times
    1.5 to the power of the consecutive-failure count, capped at 30000. *)
Definition spec_retry_delay (interval : Q) (failures : nat) : Q :=
  Qmin (interval * (3 # 2) ^ Z.of_nat failures) 30000.

(** The error of a timeout, as [pollVideoStatus] words it on its own
    timeout path. *)
Definition is_timeout (e : JsError) : bool :=
  (message e =? "Video generation timeout")%string.

End Spec.

(** * The rest of [api.ts]: [request] and the methods built on it *)
Module Http.

Import Api.

Definition API_BASE_URL : string := "http://localhost:8000/api".

(** [String(n)] for a non-negative integer [n]. *)
Definition toString (n : nat) : string :=
  DecimalString.NilZero.string_of_uint (Nat.to_uint n).

(** A plain object with string values (a headers object), as an
    association list in which the entry nearest the head wins. *)
Definition JsObject := list (string * string).

Fixpoint obj_get (k : string) (o : JsObject) : option string :=
  match o with
  | [] => None
  | (k', v) :: o' => if (k =? k')%string then Some v else obj_get k o'
  end.

(** [{...a, ...b}]: the properties of [b] win. *)
Definition obj_spread (a b : JsObject) : JsObject := b ++ a.

(** The part of [RequestInit] the service uses; an absent property is
    [None]. *)
Record RequestInit := mkInit {
  method : option string;
  body : option string;
  headers : option JsObject
}.

(** [{...a, ...b}] on request options. *)
Definition init_spread (a b : RequestInit) : RequestInit :=
  mkInit (match method b with Some m => Some m | None => method a end)
         (match body b with Some x => Some x | None => body a end)
         (match headers b with Some h => Some h | None => headers a end).

(** The second argument of [fetch] in [request]:
    [{ headers: { 'Content-Type': 'application/json', ...options.headers },
       ...options }]. *)
Definition fetch_init (options : RequestInit) : RequestInit :=
  init_spread
    (mkInit None None
       (Some (obj_spread [("Content-Type", "application/json")]
                (match headers options with Some h => h | None => [] end))))
    options.

(** [options = {}], the default of [request]. *)
Definition no_options : RequestInit := mkInit None None None.

(** The options [generateVideo] passes, [json] being
    [JSON.stringify(request)]. *)
Definition generateVideo_options (json : string) : RequestInit :=
  mkInit (Some "POST") (Some json) None.

(** What [response.json()] does. *)
Inductive Body (T : Type) :=
| Decodes (v : T)
| DecodeThrows (e : JsError).

(** What [await fetch(url, ...)] does: it rejects, or it yields a response
    with its [ok] flag, [status] and [statusText]. *)
Inductive FetchOutcome (T : Type) :=
| NetworkError (e : JsError)
| HttpResponse (ok : bool) (status : nat) (statusText : string) (b : Body T).

Arguments Decodes {T} v.
Arguments DecodeThrows {T} e.
Arguments NetworkError {T} e.
Arguments HttpResponse {T} ok status statusText b.

(** How an [async] method ends. *)
Inductive Outcome (T : Type) :=
| Returns (v : T)
| Raises (e : JsError).

Arguments Returns {T} v.
Arguments Raises {T} e.

(** [console.error(label, error)]. *)
Inductive LogEntry :=
| Logged (label : string) (e : JsError).

Definition request_url (endpoint : string) : string :=
  API_BASE_URL ++ endpoint.

(** The body of the [try] block of [request]. *)
Definition request_try {T} (o : FetchOutcome T) : Outcome T :=
  match o with
  | NetworkError e => Raises e
  | HttpResponse ok status statusText b =>
      if negb ok then
        Raises (mkError ("API Error: " ++ toString status ++ " " ++ statusText))
      else
        match b with
        | Decodes v => Returns v
        | DecodeThrows e => Raises e
        end
  end.

(** [request]: the outcome and what it writes to the console. *)
Definition request {T} (endpoint : string) (o : FetchOutcome T)
  : Outcome T * list LogEntry :=
  match request_try o with
  | Returns v => (Returns v, [])
  | Raises e =>
      (Raises e, [Logged ("API request failed for " ++ endpoint ++ ":") e])
  end.

Definition getVideoStatus (questionId : string)
  (o : FetchOutcome VideoStatusResponse) : ReadResult * list LogEntry :=
  match request ("/video-status/" ++ questionId) o with
  | (Returns s, l) => (Fulfilled s, l)
  | (Raises e, l) => (Thrown e, l)
  end.

Definition createDownloadLink (questionId : string) : string :=
  API_BASE_URL ++ "/download-video/" ++ questionId.

Definition getVideoStreamUrl (questionId : string) : string :=
  API_BASE_URL ++ "/videos/video_" ++ questionId ++ ".mp4".

(** [pollVideoStatus] with its reads going through [getVideoStatus]: the
    i-th read gets the i-th fetch outcome of [os]. *)
Definition pollVideoStatus_over (maxAttempts : Z) (interval : Q)
  (questionId : string) (os : list (FetchOutcome VideoStatusResponse))
  : PollState :=
  pollVideoStatus maxAttempts interval
    (map (fun o => fst (getVideoStatus questionId o)) os).

(** A response whose [ok] flag is false. *)
Definition is_http_error {T} (o : FetchOutcome T) : bool :=
  match o with
  | HttpResponse false _ _ _ => true
  | _ => false
  end.

(** The error [request] throws for a response that is not ok. *)
Definition api_error {T} (o : FetchOutcome T) : JsError :=
  match o with
  | HttpResponse _ status statusText _ =>
      mkError ("API Error: " ++ toString status ++ " " ++ statusText)
  | NetworkError e => e
  end.

End Http.

(** Fetch outcomes used in the examples. *)
Module HttpSamples.

Definition bad_gateway : Http.FetchOutcome Api.VideoStatusResponse :=
  Http.HttpResponse false 502 "Bad Gateway" (Http.DecodeThrows Samples.errNet).

Definition unavailable : Http.FetchOutcome Api.VideoStatusResponse :=
  Http.HttpResponse false 503 "Service Unavailable"
    (Http.DecodeThrows Samples.errNet).

Definition offline : Http.FetchOutcome Api.VideoStatusResponse :=
  Http.NetworkError Samples.errNet.

End HttpSamples.

(** * The rest of [VideoGenerationProgress.tsx]: what the component shows *)
Module View.

Import Api.

Fixpoint pad_chars (n : nat) (c : ascii) (s : string) : string :=
  match n with
  | O => s
  | S n' => String c (pad_chars n' c s)
  end.

(** [s.padStart(targetLength, c)] for a one-character pad string. *)
Definition padStart (targetLength : nat) (c : ascii) (s : string) : string :=
  pad_chars (targetLength - String.length s)%nat c s.

(** [formatTime], on the whole numbers of seconds the component passes. *)
Definition formatTime (seconds : nat) : string :=
  let mins := (seconds / 60)%nat in
  let secs := (seconds mod 60)%nat in
  Http.toString mins ++ ":" ++ padStart 2 "0"%char (Http.toString secs).

(** [formatTime(Math.max(0, 120 - elapsedTime))]. *)
Definition estimatedCompletion (elapsedTime : nat) : string :=
  formatTime (Z.to_nat (Z.max 0 (120 - Z.of_nat elapsedTime)%Z)).

Definition getProgressColor (status : option VideoStatusResponse) : string :=
  match status with
  | None => "from-blue-500 to-purple-500"
  | Some st =>
      if (Api.status st =? "completed")%string then
        "from-green-500 to-emerald-500"
      else if (Api.status st =? "failed")%string then
        "from-red-500 to-pink-500"
      else "from-blue-500 to-purple-500"
  end.

Definition getStatusText (status : option VideoStatusResponse) : string :=
  match status with
  | None => "Initializing..."
  | Some st =>
      if (Api.status st =? "queued")%string then "Queued for processing"
      else if (Api.status st =? "running")%string then "Generating video..."
      else if (Api.status st =? "completed")%string then
        "Video generation completed!"
      else if (Api.status st =? "failed")%string then
        "Video generation failed"
      else "Unknown status"
  end.

(** The URL [pollStatus] fetches. *)
Definition status_url (questionId : string) : string :=
  "http://localhost:8000/api/video-status/" ++ questionId.

(** The URL the Download button opens. *)
Definition download_url (questionId : string) : string :=
  "http://localhost:8000/api/download-video/" ++ questionId.

End View.

(** Vocabulary for the executions of the component. *)
Module Runs.

Import Api Progress.

Definition is_second (ev : Event) : bool :=
  match ev with Second => true | _ => false end.

Definition is_complete_call (a : Action) : bool :=
  match a with OnComplete _ => true | _ => false end.

Definition is_error_call (a : Action) : bool :=
  match a with OnError _ => true | _ => false end.

Definition is_completed (s : VideoStatusResponse) : bool :=
  (Api.status s =? "completed")%string.

(** ['failed'] and not ['completed']: the branch that calls [onError]. *)
Definition is_failed (s : VideoStatusResponse) : bool :=
  negb (Api.status s =? "completed")%string &&
  (Api.status s =? "failed")%string.

Definition last_opt {A} (l : list A) : option A :=
  match rev l with
  | [] => None
  | a :: _ => Some a
  end.

End Runs.

(** * The page that mounts the component: [QuestionsPage] *)
Module Page.

(** [interface Question]. *)
Record Question := {
  id : string;
  question : string;
  solution : string;
  subject : string;
  difficulty : string;
  options : list string;
  correct_answer : nat
}.

(** [interface VideoGenerationResponse]; the page reads [status]. *)
Record VideoGenerationResponse := {
  gen_status : string;
  gen_question_id : string;
  gen_message : string;
  gen_job_id : option string
}.

(** [interface VideoPreviewResponse]; the page reads [question_id]. *)
Record VideoPreviewResponse := {
  preview_question_id : string;
  preview_video_file : string;
  preview_created_at : string
}.

(** What the handlers do that is not a state update. *)
Inductive Action :=
| ToastSuccess (msg : string)
| ToastError (msg : string)
| ConsoleError (label : string) (e : JsError)
| CallGetQuestions                       (* apiService.getQuestions() *)
| CallGenerateVideo (questionId : string) (* apiService.generateVideo(...) *)
| CallGetVideoPreview (questionId : string).

(** The React state of [QuestionsPage], the calls of the service that
    await their answer, and the trace. *)
Record State := mkPage {
  questions : list Question;
  loading : bool;
  generatingQuestion : option string;
  showProgress : bool;
  showVideo : option string;
  videoData : option VideoPreviewResponse;
  pendingLoads : nat;
  pendingGenerates : nat;
  pendingPreviews : list string;
  trace : list Action
}.

Inductive Event :=
| LoadDone (r : Http.Outcome (list Question))
| ClickGenerate (q : Question)
| GenerateDone (r : Http.Outcome VideoGenerationResponse)
| VideoComplete (s : Api.VideoStatusResponse)  (* onComplete of the component *)
| VideoError (msg : string)                    (* onError of the component *)
| ClickView (q : Question)
| PreviewDone (questionId : string) (r : Http.Outcome VideoPreviewResponse).

(** [videoData?.question_id === questionId || false]. *)
Definition hasVideo (st : State) (questionId : string) : bool :=
  match videoData st with
  | Some v => (preview_question_id v =? questionId)%string
  | None => false
  end.

Definition emit (a : Action) (st : State) : State :=
  mkPage (questions st) (loading st) (generatingQuestion st) (showProgress st)
         (showVideo st) (videoData st) (pendingLoads st) (pendingGenerates st)
         (pendingPreviews st) (trace st ++ [a]).

(** [setGeneratingQuestion(g); setShowProgress(p)]. *)
Definition setGenerating (g : option string) (p : bool) (st : State) : State :=
  mkPage (questions st) (loading st) g p
         (showVideo st) (videoData st) (pendingLoads st) (pendingGenerates st)
         (pendingPreviews st) (trace st).

(** [loadQuestions], up to its [await]. *)
Definition loadQuestions_enter (st : State) : State :=
  let st := emit CallGetQuestions st in
  mkPage (questions st) true (generatingQuestion st) (showProgress st)
         (showVideo st) (videoData st) (S (pendingLoads st))
         (pendingGenerates st) (pendingPreviews st) (trace st).

(** [loadQuestions], from its [await] on; [finally] clears [loading]. *)
Definition loadQuestions_resume (r : Http.Outcome (list Question))
  (st : State) : State :=
  let st :=
    match r with
    | Http.Returns qs =>
        mkPage qs (loading st) (generatingQuestion st) (showProgress st)
               (showVideo st) (videoData st) (pendingLoads st)
               (pendingGenerates st) (pendingPreviews st) (trace st)
    | Http.Raises e =>
        emit (ToastError "Failed to load questions")
             (emit (ConsoleError "Failed to load questions:" e) st)
    end in
  mkPage (questions st) false (generatingQuestion st) (showProgress st)
         (showVideo st) (videoData st) (pendingLoads st)
         (pendingGenerates st) (pendingPreviews st) (trace st).

(** [handleGenerateVideo], up to its [await]. *)
Definition handleGenerateVideo_enter (q : Question) (st : State) : State :=
  let st := setGenerating (Some (id q)) true st in
  let st := emit (CallGenerateVideo (id q)) st in
  mkPage (questions st) (loading st) (generatingQuestion st) (showProgress st)
         None (videoData st) (pendingLoads st) (S (pendingGenerates st))
         (pendingPreviews st) (trace st).

(** [handleGenerateVideo], from its [await] on. *)
Definition handleGenerateVideo_resume
  (r : Http.Outcome VideoGenerationResponse) (st : State) : State :=
  match r with
  | Http.Returns response =>
      if (gen_status response =? "started")%string then
        emit (ToastSuccess "Video generation started!") st
      else if (gen_status response =? "already_exists")%string then
        setGenerating None false
          (emit (ToastSuccess "Video already exists!") st)
      else st
  | Http.Raises e =>
      setGenerating None false
        (emit (ToastError "Failed to start video generation")
           (emit (ConsoleError "Failed to start video generation:" e) st))
  end.

Definition handleVideoComplete (s : Api.VideoStatusResponse) (st : State)
  : State :=
  loadQuestions_enter
    (emit (ToastSuccess "Video generation completed!")
       (setGenerating None false st)).

Definition handleVideoError (msg : string) (st : State) : State :=
  emit (ToastError ("Video generation failed: " ++ msg))
       (setGenerating None false st).

(** [handleViewVideo], up to its [await]. *)
Definition handleViewVideo_enter (questionId : string) (st : State) : State :=
  let st := emit (CallGetVideoPreview questionId) st in
  mkPage (questions st) (loading st) (generatingQuestion st) (showProgress st)
         (showVideo st) (videoData st) (pendingLoads st) (pendingGenerates st)
         (pendingPreviews st ++ [questionId]) (trace st).

(** [handleViewVideo], from its [await] on. *)
Definition handleViewVideo_resume (questionId : string)
  (r : Http.Outcome VideoPreviewResponse) (st : State) : State :=
  match r with
  | Http.Returns preview =>
      mkPage (questions st) (loading st) (generatingQuestion st)
             (showProgress st) (Some questionId) (Some preview)
             (pendingLoads st) (pendingGenerates st) (pendingPreviews st)
             (trace st)
  | Http.Raises e =>
      emit (ToastError "Failed to load video")
           (emit (ConsoleError "Failed to load video preview:" e) st)
  end.

Fixpoint remove_first (x : string) (l : list string) : list string :=
  match l with
  | [] => []
  | y :: l' => if (x =? y)%string then l' else y :: remove_first x l'
  end.

(** The card of [q] is on the page: the page is not loading and the
    questions hold one with the [id] of [q]. *)
Definition card_shown (st : State) (q : Question) : bool :=
  negb (loading st) && existsb (fun q' => (id q' =? id q)%string) (questions st).

(** One turn of the event loop.  A click needs its button: the card shows
    "View Video" when [hasVideo], otherwise "Generate Video", disabled while
    [generatingQuestion === question.id].  An answer needs a call that
    awaits it.  The callbacks of the component can come at any time. *)
Definition step (st : State) (ev : Event) : option State :=
  match ev with
  | LoadDone r =>
      match pendingLoads st with
      | O => None
      | S n =>
          Some (loadQuestions_resume r
                  (mkPage (questions st) (loading st) (generatingQuestion st)
                          (showProgress st) (showVideo st) (videoData st) n
                          (pendingGenerates st) (pendingPreviews st)
                          (trace st)))
      end
  | ClickGenerate q =>
      if card_shown st q && negb (hasVideo st (id q)) &&
         negb (match generatingQuestion st with
               | Some g => (g =? id q)%string
               | None => false
               end)
      then Some (handleGenerateVideo_enter q st)
      else None
  | GenerateDone r =>
      match pendingGenerates st with
      | O => None
      | S n =>
          Some (handleGenerateVideo_resume r
                  (mkPage (questions st) (loading st) (generatingQuestion st)
                          (showProgress st) (showVideo st) (videoData st)
                          (pendingLoads st) n (pendingPreviews st)
                          (trace st)))
      end
  | VideoComplete s => Some (handleVideoComplete s st)
  | VideoError msg => Some (handleVideoError msg st)
  | ClickView q =>
      if card_shown st q && hasVideo st (id q)
      then Some (handleViewVideo_enter (id q) st)
      else None
  | PreviewDone questionId r =>
      if existsb (String.eqb questionId) (pendingPreviews st) then
        Some (handleViewVideo_resume questionId r
                (mkPage (questions st) (loading st) (generatingQuestion st)
                        (showProgress st) (showVideo st) (videoData st)
                        (pendingLoads st) (pendingGenerates st)
                        (remove_first questionId (pendingPreviews st))
                        (trace st)))
      else None
  end.

(** The page after its first render and the mount effect
    [loadQuestions()]. *)
Definition mount : State :=
  loadQuestions_enter (mkPage [] true None false None None 0 0 [] []).

Fixpoint exec (st : State) (evs : list Event) : option State :=
  match evs with
  | [] => Some st
  | ev :: evs' =>
      match step st ev with
      | Some st' => exec st' evs'
      | None => None
      end
  end.

(** The progress panel is rendered: [showProgress && generatingQuestion];
    the empty string is falsy. *)
Definition progress_rendered (st : State) : bool :=
  showProgress st &&
  match generatingQuestion st with
  | Some g => negb (g =? "")%string
  | None => false
  end.

Definition is_click_view (ev : Event) : bool :=
  match ev with ClickView _ => true | _ => false end.

Definition is_preview_call (a : Action) : bool :=
  match a with CallGetVideoPreview _ => true | _ => false end.

(** The video panel is rendered: [showVideo && videoData]. *)
Definition video_rendered (st : State) : bool :=
  match showVideo st, videoData st with
  | Some v, Some _ => negb (v =? "")%string
  | _, _ => false
  end.

Definition is_video_complete (ev : Event) : bool :=
  match ev with VideoComplete _ => true | _ => false end.

Definition is_get_questions (a : Action) : bool :=
  match a with CallGetQuestions => true | _ => false end.

Definition is_completed_toast (a : Action) : bool :=
  match a with
  | ToastSuccess msg => (msg =? "Video generation completed!")%string
  | _ => false
  end.

(** What holds between any two turns of the page. *)
Definition page_inv (st : State) : Prop :=
  showProgress st =
    match generatingQuestion st with Some _ => true | None => false end /\
  videoData st = None /\ showVideo st = None /\
  pendingPreviews st = [] /\
  count is_preview_call (trace st) = 0%nat.

End Page.

(** Inputs of the page used in the examples. *)
Module PageSamples.

Definition q1 : Page.Question :=
  Page.Build_Question "Q1" "What is the derivative of x^2?" "2x" "Calculus"
    "Beginner" ["x"; "2x"] 1.

Definition started : Page.VideoGenerationResponse :=
  Page.Build_VideoGenerationResponse "started" "Q1"
    "Video generation started" None.

(** A question is loaded, its video is generated, and the component
    reports completion; the questions are loaded again. *)
Definition generate_and_complete : list Page.Event :=
  [Page.LoadDone (Http.Returns [q1]);
   Page.ClickGenerate q1;
   Page.GenerateDone (Http.Returns started);
   Page.VideoComplete Samples.completed100;
   Page.LoadDone (Http.Returns [q1])].

End PageSamples.

(** * Properties of [pollVideoStatus] *)
Module ApiProps.

Import Api.

Lemma count_app {A} (p : A -> bool) (l : list A) (a : A) :
  count p (l ++ [a]) = (count p l + (if p a then 1 else 0))%nat.
Proof.
  unfold count. rewrite filter_app, length_app. simpl.
  destruct (p a); reflexivity.
Qed.

Lemma delays_app (t : list Action) (a : Action) :
  delays (t ++ [a]) =
  delays t ++ match delay_of a with Some d => [d] | None => [] end.
Proof.
  induction t as [|b t IH]; simpl.
  - destruct (delay_of a); reflexivity.
  - rewrite IH. destruct (delay_of b); reflexivity.
Qed.

Lemma progressed_app (t : list Action) (a : Action) :
  progressed (t ++ [a]) =
  progressed t ++ match a with OnProgress s => [s] | _ => [] end.
Proof.
  induction t as [|b t IH]; simpl.
  - destruct a; reflexivity.
  - rewrite IH. destruct b; reflexivity.
Qed.

Section Invariant.

Variable maxAttempts : Z.
Variable interval : Q.

Local Abbreviation step := (step maxAttempts interval).
Local Abbreviation reachable := (reachable maxAttempts interval).
Local Abbreviation Inv := (Inv maxAttempts).
Local Abbreviation ceiling := (ceiling maxAttempts).
Local Abbreviation at_rest := (at_rest maxAttempts interval).

Lemma Inv_start : Inv start.
Proof.
  unfold Inv, start, poll_enter, emit; simpl.
  repeat split; try lia; try discriminate.
Qed.

Ltac split_tests :=
  repeat match goal with
  | |- context [String.eqb ?a ?b] => destruct (String.eqb a b)
  | |- context [Z.leb ?a ?b] => destruct (Z.leb_spec a b)
  end.

Lemma Inv_step st ev st' : Inv st -> step st ev = Some st' -> Inv st'.
Proof.
  intros (Hone & Hreads & Hbound & Hs) Hstep.
  destruct st as [att se inf tim tr]; simpl in *.
  destruct se as [o|].
  - destruct Hs as (-> & -> & _). destruct ev; discriminate.
  - destruct Hs as (Hpend & Hnone & Htim).
    destruct ev as [r|]; simpl in Hstep.
    + destruct inf as [|inf]; [discriminate|].
      assert (inf = 0%nat /\ tim = 0%nat) as [-> ->] by lia.
      injection Hstep as <-.
      unfold Inv, poll_resume.
      destruct r as [s|e]; cbn [emit attempts trace settled inflight timers];
        split_tests;
        cbn [do_resolve do_reject do_setTimeout settle emit attempts trace
             settled inflight timers];
        rewrite ?count_app; cbn [is_read is_settle].
      all: (split; [lia|]); (split; [lia|]); (split; [lia|]).
      all: try (split; [lia|split; [lia|intros _; lia]]).
      all: split; [reflexivity|split; [reflexivity|]].
      all: eexists; split; [reflexivity|].
      all: rewrite ?count_app; cbn [is_settle]; lia.
    + destruct tim as [|tim]; [discriminate|].
      assert (inf = 0%nat /\ tim = 0%nat) as [-> ->] by lia.
      injection Hstep as <-.
      specialize (Htim eq_refl).
      unfold Inv, poll_enter; cbn [emit attempts trace settled inflight timers].
      rewrite !count_app; cbn [is_read is_settle].
      repeat split; lia.
Qed.

Lemma reachable_Inv st : reachable st -> Inv st.
Proof.
  induction 1 as [|st ev st' _ IH Hstep].
  - apply Inv_start.
  - exact (Inv_step _ _ _ IH Hstep).
Qed.

Lemma settled_final st o ev :
  reachable st -> settled st = Some o -> step st ev = None.
Proof.
  intros Hr Hs. destruct (reachable_Inv _ Hr) as (_ & _ & _ & H).
  rewrite Hs in H. destruct H as (Hi & Ht & _).
  destruct ev; simpl; [rewrite Hi | rewrite Ht]; reflexivity.
Qed.

Lemma one_pending st : reachable st -> (inflight st + timers st <= 1)%nat.
Proof.
  intros Hr. destruct (reachable_Inv _ Hr) as (_ & _ & _ & H).
  destruct (settled st); [destruct H as (-> & -> & _) | destruct H]; lia.
Qed.

Lemma attempts_le_ceiling st : reachable st -> (attempts st <= ceiling)%nat.
Proof.
  intros Hr. destruct (reachable_Inv _ Hr) as (_ & _ & H & _).
  unfold ceiling. lia.
Qed.

Lemma poll_resume_keeps r st :
  attempts (poll_resume maxAttempts interval r st) = attempts st /\
  inflight (poll_resume maxAttempts interval r st) = inflight st.
Proof.
  unfold poll_resume. destruct r; cbn [emit attempts]; split_tests;
    split; reflexivity.
Qed.

Lemma at_rest_start : at_rest start.
Proof. split; [constructor | reflexivity]. Qed.

Lemma at_rest_cases st :
  at_rest st ->
  (exists o, settled st = Some o /\ inflight st = 0%nat) \/
  (settled st = None /\ inflight st = 1%nat).
Proof.
  intros [Hr Ht]. destruct (reachable_Inv _ Hr) as (_ & _ & _ & H).
  destruct (settled st) as [o|].
  - left. exists o. tauto.
  - right. split; [reflexivity | lia].
Qed.

(** One round of the sequential run from a state at rest with a pending
    read: the read is answered; either the promise settles and nothing is
    left pending, or the timer armed by that turn fires and the next read
    is pending. *)
Lemma round st r :
  at_rest st -> settled st = None ->
  exists st1, step st (ReadDone r) = Some st1 /\ reachable st1 /\
    ((settled st1 <> None /\ step st1 TimerFired = None /\
      forall r', step st1 (ReadDone r') = None) \/
     (settled st1 = None /\ timers st1 = 1%nat /\
      exists st2, step st1 TimerFired = Some st2 /\ at_rest st2 /\
        settled st2 = None /\ attempts st2 = S (attempts st))).
Proof.
  intros Hrest Hs.
  destruct (at_rest_cases _ Hrest) as [(o & Ho & _)|[_ Hi]]; [congruence|].
  destruct Hrest as [Hr Ht].
  assert (Hstep : exists st1, step st (ReadDone r) = Some st1)
    by (simpl; rewrite Hi; eauto).
  destruct Hstep as [st1 Hstep]. exists st1. split; [exact Hstep|].
  assert (Hr1 : reachable st1) by (econstructor; eassumption).
  split; [exact Hr1|].
  assert (Hk : attempts st1 = attempts st /\ inflight st1 = 0%nat).
  { simpl in Hstep. rewrite Hi in Hstep. injection Hstep as <-.
    destruct (poll_resume_keeps r
      (mkPoll (attempts st) (settled st) 0 (timers st) (trace st))) as [-> ->].
    split; reflexivity. }
  destruct Hk as [Ha Hi1].
  destruct (reachable_Inv _ Hr1) as (_ & _ & _ & H).
  destruct (settled st1) as [o|] eqn:Hs1.
  - left. split; [discriminate|]. split.
    + eapply settled_final; eassumption.
    + intros r'. eapply settled_final; eassumption.
  - right. destruct H as (Hp & _ & _). split; [reflexivity|].
    assert (Ht1 : timers st1 = 1%nat) by lia. split; [exact Ht1|].
    assert (Hfire : step st1 TimerFired = Some (poll_enter
              (mkPoll (attempts st1) (settled st1) (inflight st1) 0
                      (trace st1))))
      by (unfold step; rewrite Ht1; reflexivity).
    eexists. split; [exact Hfire|].
    split; [split; [econstructor; eassumption | reflexivity]|].
    split; [exact Hs1 | simpl; congruence].
Qed.

Lemma run_from_settled st rs :
  at_rest st -> settled st <> None -> run_from maxAttempts interval st rs = st.
Proof.
  intros Hrest Hs. destruct rs as [|r rs]; [reflexivity|].
  destruct (settled st) as [o|] eqn:Ho; [|congruence].
  cbn [run_from]. rewrite (settled_final st o (ReadDone r)); auto.
  apply Hrest.
Qed.

Lemma run_from_at_rest st rs :
  at_rest st -> at_rest (run_from maxAttempts interval st rs).
Proof.
  revert st. induction rs as [|r rs IH]; intros st Hrest; [exact Hrest|].
  destruct (settled st) as [o|] eqn:Ho.
  - rewrite run_from_settled; [exact Hrest | exact Hrest | congruence].
  - destruct (round st r Hrest Ho) as (st1 & Hstep & Hr1 & Hcase).
    cbn [run_from]. rewrite Hstep.
    destruct Hcase as [(Hs1 & Hnone & _)|(_ & _ & st2 & Hfire & Hrest2 & _)].
    + rewrite Hnone. split; [exact Hr1|].
      unfold step in Hnone.
      destruct (timers st1); [reflexivity|discriminate].
    + rewrite Hfire. apply IH, Hrest2.
Qed.

Lemma run_from_app st rs1 rs2 :
  at_rest st ->
  run_from maxAttempts interval st (rs1 ++ rs2) =
  run_from maxAttempts interval (run_from maxAttempts interval st rs1) rs2.
Proof.
  revert st. induction rs1 as [|r rs1 IH]; intros st Hrest; [reflexivity|].
  destruct (settled st) as [o|] eqn:Ho.
  - rewrite !(run_from_settled st) by (try exact Hrest; congruence).
    reflexivity.
  - destruct (round st r Hrest Ho) as (st1 & Hstep & Hr1 & Hcase).
    cbn [run_from app]. rewrite Hstep.
    destruct Hcase as [(Hs1 & Hnone & Hnor)|(_ & _ & st2 & Hfire & Hrest2 & _)].
    + rewrite Hnone. destruct rs2 as [|r2 rs2]; [reflexivity|].
      cbn [run_from]. rewrite Hnor. reflexivity.
    + rewrite Hfire. apply IH, Hrest2.
Qed.

(** A run that has not settled has counted one attempt per result
    consumed, plus the read that is pending. *)
Lemma run_unsettled st rs :
  at_rest st -> settled (run_from maxAttempts interval st rs) = None ->
  settled st = None /\
  attempts (run_from maxAttempts interval st rs) = (attempts st + length rs)%nat.
Proof.
  revert st. induction rs as [|r rs IH]; intros st Hrest Hrun.
  - simpl in *. split; [exact Hrun | lia].
  - destruct (settled st) as [o|] eqn:Ho.
    + rewrite run_from_settled in Hrun by (try exact Hrest; congruence).
      congruence.
    + split; [reflexivity|].
      destruct (round st r Hrest Ho) as (st1 & Hstep & Hr1 & Hcase).
      cbn [run_from] in *. rewrite Hstep in *.
      destruct Hcase as [(Hs1 & Hnone & _)|(_ & _ & st2 & Hfire & Hrest2 & _ & Ha)].
      * rewrite Hnone in Hrun. congruence.
      * rewrite Hfire in *. destruct (IH st2 Hrest2 Hrun) as [_ ->].
        rewrite Ha. simpl. lia.
Qed.

(** Termination: whatever the reads return, the promise has settled once
    [ceiling] results have been consumed. *)
Lemma run_from_settles st rs :
  at_rest st -> (ceiling < attempts st + length rs)%nat ->
  settled (run_from maxAttempts interval st rs) <> None.
Proof.
  intros Hrest Hlen Hnone.
  destruct (run_unsettled st rs Hrest Hnone) as [_ Ha].
  pose proof (attempts_le_ceiling _ (proj1 (run_from_at_rest st rs Hrest))).
  lia.
Qed.

(** ** Runs on particular kinds of results *)

Lemma ceiling_last a :
  (1 <= a)%nat -> a = ceiling -> (maxAttempts <= Z.of_nat a)%Z.
Proof. unfold ceiling. lia. Qed.

Lemma ceiling_below a :
  (1 <= a)%nat -> (a < ceiling)%nat -> (Z.of_nat a < maxAttempts)%Z.
Proof. unfold ceiling. lia. Qed.

(** Reads that all fail: the promise is rejected at the read that brings
    [attempts] to the ceiling, with the error of that read. *)
Lemma all_thrown_run es d extra : forall e a tr,
  (1 <= a)%nat -> (a + length es = ceiling)%nat ->
  let st := run_from maxAttempts interval (mkPoll a None 1 0 tr)
              (map Thrown (e :: es) ++ extra) in
  settled st = Some (Rejected (last (e :: es) d)) /\ attempts st = ceiling /\
  inflight st = 0%nat /\ timers st = 0%nat.
Proof.
  induction es as [|e' es IH]; intros e a tr Ha Hlen; cbn [length] in Hlen.
  - pose proof (ceiling_last a Ha ltac:(lia)) as Hc.
    cbn [map app run_from step inflight poll_resume attempts].
    destruct (Z.leb_spec maxAttempts (Z.of_nat a)); [|lia].
    cbn. repeat split. lia.
  - pose proof (ceiling_below a Ha ltac:(lia)) as Hc.
    cbn [map app run_from step inflight poll_resume attempts].
    destruct (Z.leb_spec maxAttempts (Z.of_nat a)); [lia|].
    cbn [do_setTimeout emit attempts settled inflight timers trace poll_enter].
    change (last (e :: e' :: es) d) with (last (e' :: es) d).
    apply (IH e' (S a)); lia.
Qed.

(** Reads that all succeed with a status that is neither ['completed']
    nor ['failed']: the promise is rejected with the timeout error at the
    read that brings [attempts] to the ceiling. *)
Lemma all_pending_run ss extra : forall s a tr,
  Forall (fun s => Spec.terminal_status s = false) (s :: ss) ->
  (1 <= a)%nat -> (a + length ss = ceiling)%nat ->
  let st := run_from maxAttempts interval (mkPoll a None 1 0 tr)
              (map Fulfilled (s :: ss) ++ extra) in
  settled st = Some (Rejected (mkError "Video generation timeout")) /\
  attempts st = ceiling /\
  progressed (trace st) = progressed tr ++ s :: ss.
Proof.
  induction ss as [|s' ss IH]; intros s a tr Hall Ha Hlen;
    cbn [length] in Hlen;
    inversion Hall as [|s0 ss0 Hs Hall']; subst;
    unfold Spec.terminal_status in Hs; apply orb_false_elim in Hs;
    destruct Hs as [Hc Hf].
  - pose proof (ceiling_last a Ha ltac:(lia)) as Hle.
    cbn [map app run_from step inflight poll_resume attempts emit].
    rewrite Hc, Hf.
    destruct (Z.leb_spec maxAttempts (Z.of_nat a)); [|lia].
    cbn [do_reject settle emit attempts settled inflight timers trace step].
    rewrite !progressed_app, app_nil_r.
    repeat split. lia.
  - pose proof (ceiling_below a Ha ltac:(lia)) as Hlt.
    cbn [map app run_from step inflight poll_resume attempts emit].
    rewrite Hc, Hf.
    destruct (Z.leb_spec maxAttempts (Z.of_nat a)); [lia|].
    cbn [do_setTimeout emit attempts settled inflight timers trace poll_enter
         step].
    destruct (IH s' (S a)
                (((tr ++ [OnProgress s]) ++ [SetTimeout interval]) ++
                 [GetVideoStatus]) Hall' ltac:(lia) ltac:(lia))
      as (H1 & H2 & H3).
    split; [exact H1|]. split; [exact H2|].
    etransitivity; [exact H3|].
    rewrite !progressed_app, !app_nil_r, <- app_assoc. reflexivity.
Qed.

(** Reads that succeed with a status that is neither ['completed'] nor
    ['failed'], fewer than the ceiling allows: the run goes on, the next
    read is pending. *)
Lemma pending_run_continues ss : forall a tr,
  Forall (fun s => Spec.terminal_status s = false) ss ->
  (1 <= a)%nat -> (a + length ss <= ceiling)%nat ->
  exists tr',
    run_from maxAttempts interval (mkPoll a None 1 0 tr) (map Fulfilled ss) =
    mkPoll (a + length ss) None 1 0 tr'.
Proof.
  induction ss as [|s ss IH]; intros a tr Hall Ha Hlen; cbn [length] in Hlen.
  - exists tr. cbn. rewrite Nat.add_0_r. reflexivity.
  - inversion Hall as [|s0 ss0 Hs Hall']; subst.
    unfold Spec.terminal_status in Hs. apply orb_false_elim in Hs.
    destruct Hs as [Hc Hf].
    pose proof (ceiling_below a Ha ltac:(lia)) as Hlt.
    cbn [map run_from step inflight poll_resume attempts emit].
    rewrite Hc, Hf.
    destruct (Z.leb_spec maxAttempts (Z.of_nat a)); [lia|].
    cbn [do_setTimeout emit attempts settled inflight timers trace poll_enter
         step].
    destruct (IH (S a)
                (((tr ++ [OnProgress s]) ++ [SetTimeout interval]) ++
                 [GetVideoStatus]) Hall' ltac:(lia) ltac:(lia)) as [tr' Hrun].
    exists tr'. etransitivity; [exact Hrun|]. f_equal. cbn [length]. lia.
Qed.

(** The promise settles at most once, and once it has settled nothing is
    pending: no read, no timer, no further event. *)
Lemma settles_at_most_once st :
  reachable st ->
  (count is_settle (trace st) <= 1)%nat /\
  (settled st <> None -> forall ev, step st ev = None).
Proof.
  intros Hr. split.
  - destruct (reachable_Inv _ Hr) as (_ & _ & _ & H).
    destruct (settled st) as [o|].
    + destruct H as (_ & _ & pre & -> & Hpre).
      rewrite count_app, Hpre. destruct o; simpl; lia.
    + destruct H as (_ & -> & _). lia.
  - intros Hs ev. destruct (settled st) as [o|] eqn:Ho; [|congruence].
    eapply settled_final; eassumption.
Qed.

(** Reads that all succeed: every delay handed to [setTimeout] is
    [interval], and there is one delay before each read but the first. *)
Lemma healthy_delays ss : forall st,
  timers st = 0%nat -> (1 <= attempts st)%nat ->
  delays (trace st) = repeat interval (attempts st - 1) ->
  let st' := run_from maxAttempts interval st (map Fulfilled ss) in
  delays (trace st') = repeat interval (attempts st' - 1).
Proof.
  induction ss as [|s ss IH]; intros st Ht Ha Hd; [exact Hd|].
  destruct st as [a se inf tim tr]. simpl in Ht, Ha, Hd. subst tim.
  cbn [map run_from step inflight].
  destruct inf as [|inf]; [exact Hd|].
  cbn [poll_resume emit attempts settled inflight timers trace].
  split_tests;
    cbn [do_resolve do_reject do_setTimeout settle emit attempts settled
         inflight timers trace step];
    try (cbn [trace attempts]; rewrite !delays_app; cbn [delay_of];
         rewrite !app_nil_r; exact Hd).
  apply IH; cbn [poll_enter emit attempts settled inflight timers trace];
    [reflexivity | lia |].
  rewrite !delays_app; cbn [delay_of]. rewrite !app_nil_r, Hd.
  replace (S a - 1)%nat with (S (a - 1)) by lia.
  simpl. apply eq_sym, repeat_cons.
Qed.

(** The last result of an unsettled run decides the delay before the
    read that is now pending: [interval] after a success, the backoff of
    the attempt counter after a failure.  The counter stands at the number
    of reads issued. *)
Lemma run_snoc_unsettled rs r :
  let st := pollVideoStatus maxAttempts interval (rs ++ [r]) in
  settled st = None ->
  attempts st = (length rs + 2)%nat /\
  last (delays (trace st)) 0%Q =
    match r with
    | Fulfilled _ => interval
    | Thrown _ => backoffInterval interval (length rs + 1)
    end.
Proof.
  intros st Hs. subst st. unfold pollVideoStatus in *.
  destruct (run_unsettled _ _ (at_rest_start) Hs) as [_ Ha].
  split; [rewrite Ha, length_app; simpl; lia|].
  rewrite run_from_app in * by apply at_rest_start.
  pose proof (run_from_at_rest (Api.start) rs at_rest_start) as Hrest.
  destruct (run_unsettled _ _ Hrest Hs) as [Hs0 _].
  destruct (run_unsettled _ _ at_rest_start Hs0) as [_ Ha0].
  destruct (at_rest_cases _ Hrest) as [(o & Ho & _)|[_ Hi]]; [congruence|].
  destruct Hrest as [_ Ht].
  destruct (run_from maxAttempts interval Api.start rs) as [a se inf tim tr].
  simpl in Hs0, Ha0, Hi, Ht. subst se inf tim.
  replace (length rs + 1)%nat with a by (rewrite Ha0; simpl; lia).
  clear Ha. revert Hs.
  destruct r as [s|e];
    cbn [run_from step inflight poll_resume emit attempts settled timers
         trace];
    split_tests;
    cbn [do_resolve do_reject do_setTimeout settle emit attempts settled
         inflight timers trace step poll_enter];
    try discriminate; intros _;
    rewrite !delays_app; cbn [delay_of]; rewrite !app_nil_r;
    apply last_last.
Qed.

(** ** The backoff delay *)

Lemma backoff_le_cap k : backoffInterval interval k <= 30000.
Proof. apply Q.le_min_r. Qed.

Lemma backoff_mono k k' :
  0 <= interval -> (k <= k')%nat ->
  backoffInterval interval k <= backoffInterval interval k'.
Proof.
  intros Hi Hk. unfold backoffInterval.
  apply Q.min_le_compat_r.
  rewrite !(Qmult_comm interval).
  apply Qmult_le_compat_r; [|exact Hi].
  apply Qpower_le_compat_l; [lia | discriminate].
Qed.

(** ** Order of delivery *)

Lemma step_progressed st ev st' :
  step st ev = Some st' ->
  progressed (trace st') = progressed (trace st) ++ fulfilled [ev].
Proof.
  destruct ev as [r|]; cbn [step].
  - destruct (inflight st); [discriminate|]. intros [= <-].
    unfold poll_resume, fulfilled.
    destruct r as [s|e]; cbn [emit attempts settled inflight timers trace];
      split_tests;
      cbn [do_resolve do_reject do_setTimeout settle emit attempts settled
           inflight timers trace];
      rewrite !progressed_app, ?app_nil_r; reflexivity.
  - destruct (timers st); [discriminate|]. intros [= <-].
    cbn [poll_enter emit trace fulfilled].
    rewrite progressed_app, !app_nil_r. reflexivity.
Qed.

Lemma fulfilled_app evs1 evs2 :
  fulfilled (evs1 ++ evs2) = fulfilled evs1 ++ fulfilled evs2.
Proof.
  induction evs1 as [|[[s|e]|] evs1 IH]; simpl; rewrite ?IH; reflexivity.
Qed.

Lemma exec_progressed evs : forall st st',
  exec maxAttempts interval st evs = Some st' ->
  progressed (trace st') = progressed (trace st) ++ fulfilled evs.
Proof.
  induction evs as [|ev evs IH]; intros st st'; cbn [exec].
  - intros [= <-]. simpl. rewrite app_nil_r. reflexivity.
  - destruct (step st ev) as [st1|] eqn:Hstep; [|discriminate].
    intros Hexec. rewrite (IH _ _ Hexec), (step_progressed _ _ _ Hstep).
    change (ev :: evs) with ([ev] ++ evs).
    rewrite fulfilled_app, app_assoc. reflexivity.
Qed.

Lemma exec_reachable evs : forall st st',
  reachable st -> exec maxAttempts interval st evs = Some st' -> reachable st'.
Proof.
  induction evs as [|ev evs IH]; intros st st' Hr; cbn [exec].
  - intros [= <-]. exact Hr.
  - destruct (step st ev) as [st1|] eqn:Hstep; [|discriminate].
    apply IH. econstructor; eassumption.
Qed.

(** An unsettled run has one read pending, no timer armed, and has counted
    one attempt per result consumed plus the pending read. *)
Lemma unsettled_shape rs :
  settled (pollVideoStatus maxAttempts interval rs) = None ->
  exists tr,
    pollVideoStatus maxAttempts interval rs = mkPoll (S (length rs)) None 1 0 tr.
Proof.
  intros Hs. unfold pollVideoStatus in *.
  pose proof (run_from_at_rest Api.start rs at_rest_start) as Hrest.
  destruct (run_unsettled _ _ at_rest_start Hs) as [_ Ha].
  destruct (at_rest_cases _ Hrest) as [(o & Ho & _)|[_ Hi]]; [congruence|].
  destruct Hrest as [_ Ht].
  destruct (run_from maxAttempts interval Api.start rs) as [a se inf tim tr].
  simpl in *. subst. exists tr. reflexivity.
Qed.

Lemma run_reachable rs : reachable (pollVideoStatus maxAttempts interval rs).
Proof. apply (run_from_at_rest Api.start rs at_rest_start). Qed.

Lemma run_reads rs :
  attempts (pollVideoStatus maxAttempts interval rs) =
  count is_read (trace (pollVideoStatus maxAttempts interval rs)).
Proof.
  destruct (reachable_Inv _ (run_reachable rs)) as (_ & H & _).
  symmetry. exact H.
Qed.

(** A status ['failed'] settles the promise in that turn, with the error
    string of the service when it has one. *)
Lemma failed_status_rejects st s :
  at_rest st -> settled st = None -> status s = "failed" ->
  exists st', step st (ReadDone (Fulfilled s)) = Some st' /\
    settled st' =
      Some (Rejected (mkError (or_else (error s) "Video generation failed"))) /\
    forall ev, step st' ev = None.
Proof.
  intros Hrest Hs Hf.
  destruct (at_rest_cases _ Hrest) as [(o & Ho & _)|[_ Hi]]; [congruence|].
  assert (Hstep : exists st', step st (ReadDone (Fulfilled s)) = Some st' /\
    settled st' =
      Some (Rejected (mkError (or_else (error s) "Video generation failed")))).
  { cbn [step]. rewrite Hi. eexists. split; [reflexivity|].
    cbn [poll_resume emit attempts settled inflight timers trace].
    rewrite Hf. cbn. rewrite Hs. reflexivity. }
  destruct Hstep as (st' & Hstep & Hset). exists st'.
  split; [exact Hstep|]. split; [exact Hset|].
  intros ev. eapply settled_final; [|exact Hset].
  econstructor; [apply Hrest | exact Hstep].
Qed.

End Invariant.

(** ** Two scenarios of the specification, run on [pollVideoStatus] *)

Example scenario_completed :
  let st := pollVideoStatus Samples.default_maxAttempts
              Samples.default_interval
              (map Fulfilled [Samples.queued0; Samples.running 10;
                              Samples.running 55; Samples.completed100]) in
  progressed (trace st) =
    [Samples.queued0; Samples.running 10; Samples.running 55;
     Samples.completed100] /\
  settled st = Some (Resolved Samples.completed100) /\
  count is_settle (trace st) = 1%nat /\
  count is_read (trace st) = 4%nat.
Proof. vm_compute. repeat split. Qed.

Example scenario_reported_failure :
  let st := pollVideoStatus Samples.default_maxAttempts
              Samples.default_interval
              (map Fulfilled [Samples.running 30; Samples.failed_crash]) in
  trace st =
    [GetVideoStatus; OnProgress (Samples.running 30);
     SetTimeout Samples.default_interval;
     GetVideoStatus; OnProgress Samples.failed_crash;
     Reject (mkError "render engine crashed")] /\
  settled st = Some (Rejected (mkError "render engine crashed")) /\
  inflight st = 0%nat /\ timers st = 0%nat.
Proof. vm_compute. repeat split. Qed.

End ApiProps.

(** * Properties of the polling effect of [VideoGenerationProgress] *)
Module ProgressProps.

Import Api Progress.

Lemma statuses_set_app (t : list Action) (a : Action) :
  statuses_set (t ++ [a]) =
  statuses_set t ++ match a with SetStatus s => [s] | _ => [] end.
Proof.
  induction t as [|b t IH]; simpl.
  - destruct a; reflexivity.
  - rewrite IH. destruct b; reflexivity.
Qed.

Lemma bodies_app evs1 evs2 : bodies (evs1 ++ evs2) = bodies evs1 ++ bodies evs2.
Proof.
  induction evs1 as [|[|id [s| |e]| | |] evs1 IH]; simpl; rewrite ?IH;
    reflexivity.
Qed.

Ltac split_status :=
  repeat match goal with
  | |- context [String.eqb ?a ?b] => destruct (String.eqb a b)
  end.

(** What a turn leaves alone: only a tick and a run of the effect issue a
    read, only [Cleanup] disarms the polling timer, whose period is always
    2000 ms. *)
Lemma step_frame st ev st' :
  step st ev = Some st' ->
  issued st' = (issued st + (if issues_read ev then 1 else 0))%nat /\
  (is_cleanup ev = false -> interval st = Some 2000%Z ->
   interval st' = Some 2000%Z) /\
  statuses_set (trace st') = statuses_set (trace st) ++ bodies [ev].
Proof.
  destruct ev as [|id r| | |]; cbn [step issues_read is_cleanup bodies].
  - destruct (interval st) eqn:E; [|discriminate]. intros [= <-].
    cbn. rewrite statuses_set_app, !app_nil_r.
    repeat split; try reflexivity; try lia. intros; congruence.
  - destruct (existsb _ _); [|discriminate]. intros [= <-].
    destruct r as [s| |e]; unfold pollStatus_resume;
      split_status;
      cbn [setStatus setIsPolling emit status isPolling elapsedTime interval
           inflight issued trace];
      rewrite ?statuses_set_app, ?app_nil_r;
      repeat split; try reflexivity; try lia; intros; congruence.
  - destruct (isPolling st); [|discriminate]. intros [= <-].
    cbn. rewrite app_nil_r.
    repeat split; try reflexivity; try lia. intros; congruence.
  - destruct (interval st); [|discriminate]. intros [= <-].
    cbn. rewrite statuses_set_app, !app_nil_r.
    repeat split; try reflexivity; try discriminate; lia.
  - destruct (interval st); [|discriminate]. intros [= <-].
    cbn. rewrite !statuses_set_app, !app_nil_r.
    repeat split; try reflexivity; lia.
Qed.

Lemma exec_frame evs : forall st st',
  exec st evs = Some st' ->
  issued st' = (issued st + count issues_read evs)%nat /\
  (existsb is_cleanup evs = false -> interval st = Some 2000%Z ->
   interval st' = Some 2000%Z) /\
  statuses_set (trace st') = statuses_set (trace st) ++ bodies evs.
Proof.
  induction evs as [|ev evs IH]; intros st st'; cbn [exec].
  - intros [= <-]. cbn. rewrite app_nil_r.
    repeat split; [lia | intros _ H; exact H].
  - destruct (step st ev) as [st1|] eqn:Hstep; [|discriminate].
    intros Hexec.
    destruct (IH _ _ Hexec) as (Hi & Ht & Hs).
    destruct (step_frame _ _ _ Hstep) as (Hi1 & Ht1 & Hs1).
    split; [|split].
    + rewrite Hi, Hi1. unfold count. cbn [filter].
      destruct (issues_read ev); cbn [length]; lia.
    + cbn [existsb]. intros Hc H0. apply orb_false_elim in Hc.
      destruct Hc as [Hc1 Hc2]. exact (Ht Hc2 (Ht1 Hc1 H0)).
    + rewrite Hs, Hs1. change (ev :: evs) with ([ev] ++ evs).
      rewrite bodies_app, app_assoc. reflexivity.
Qed.

(** Ticks that are not answered pile up reads: each tick adds one. *)
Lemma ticks_pile_up n : forall st p,
  interval st = Some p ->
  exists st', exec st (repeat Tick n) = Some st' /\
    length (inflight st') = (length (inflight st) + n)%nat /\
    interval st' = Some p.
Proof.
  induction n as [|n IH]; intros st p Hp.
  - exists st. repeat split; [lia | exact Hp].
  - cbn [repeat exec step]. rewrite Hp.
    destruct (IH (pollStatus_enter st) p Hp) as (st' & He & Hl & Hi).
    exists st'. split; [exact He|]. split; [|exact Hi].
    rewrite Hl. cbn. rewrite length_app. simpl. lia.
Qed.

(** A failed read changes nothing but the console. *)
Lemma failed_read_is_silent st id r :
  existsb (Nat.eqb id) (inflight st) = true -> is_failure r = true ->
  exists st', step st (Response id r) = Some st' /\
    status st' = status st /\ isPolling st' = isPolling st /\
    elapsedTime st' = elapsedTime st /\ interval st' = interval st /\
    issued st' = issued st /\
    (trace st' = trace st \/ exists e, trace st' = trace st ++ [ConsoleError e]).
Proof.
  intros Hin Hf. cbn [step]. rewrite Hin.
  destruct r as [s| |e]; [discriminate| |]; eexists; (split; [reflexivity|]);
    cbn; repeat split; eauto.
Qed.

Lemma remove_only k : remove_id k [k] = [].
Proof. unfold remove_id. simpl. rewrite Nat.eqb_refl. reflexivity. Qed.

Lemma in_only k : existsb (Nat.eqb k) [k] = true.
Proof. simpl. rewrite Nat.eqb_refl. reflexivity. Qed.

(** One round of the sequential run on a failed read. *)
Lemma failing_round st k p r rs :
  is_failure r = true ->
  inflight st = [k] -> issued st = S k -> interval st = Some p ->
  exists st2, run_from st (r :: rs) = run_from st2 rs /\
    inflight st2 = [S k] /\ issued st2 = S (S k) /\ interval st2 = Some p /\
    status st2 = status st /\ isPolling st2 = isPolling st /\
    count is_notification (trace st2) = count is_notification (trace st) /\
    count is_fetch (trace st2) = S (count is_fetch (trace st)).
Proof.
  intros Hr Hin Hiss Hp.
  destruct st as [s b el i inf iss tr]. cbn in Hin, Hiss, Hp. subst.
  cbn [run_from step issued inflight status isPolling elapsedTime interval
       trace].
  replace (S k - 1)%nat with k by lia.
  rewrite in_only, remove_only.
  destruct r as [s'| |e]; [discriminate| |];
    (eexists; split; [reflexivity|]);
    unfold pollStatus_enter, pollStatus_resume, emit;
    cbn [status isPolling elapsedTime interval inflight issued trace app];
    rewrite ?ApiProps.count_app; cbn [is_notification is_fetch];
    repeat split; lia.
Qed.

(** Reads that all fail, each answered before the next tick: the loop
    goes on, one read per result, and nothing is notified. *)
Lemma failing_run rs : forall st k p,
  forallb is_failure rs = true ->
  inflight st = [k] -> issued st = S k -> interval st = Some p ->
  let st' := run_from st rs in
  issued st' = (issued st + length rs)%nat /\ interval st' = Some p /\
  status st' = status st /\ isPolling st' = isPolling st /\
  count is_notification (trace st') = count is_notification (trace st) /\
  count is_fetch (trace st') = (count is_fetch (trace st) + length rs)%nat /\
  length (inflight st') = 1%nat.
Proof.
  induction rs as [|r rs IH]; intros st k p Hall Hin Hiss Hp.
  - cbn. rewrite Hin. repeat split; try lia. exact Hp.
  - cbn [forallb] in Hall. apply andb_prop in Hall. destruct Hall as [Hr Hall].
    destruct (failing_round st k p r rs Hr Hin Hiss Hp)
      as (st2 & -> & Hin2 & Hiss2 & Hp2 & Hs2 & Hb2 & Hn2 & Hf2).
    destruct (IH st2 (S k) p Hall Hin2 Hiss2 Hp2)
      as (H1 & H2 & H3 & H4 & H5 & H6 & H7).
    cbn zeta. rewrite H1, H2, H3, H4, H5, H6, H7, Hiss2, Hiss, Hf2.
    cbn [length]. repeat split; try congruence; lia.
Qed.

Lemma all_fail_repeat n : forallb is_failure (repeat NotOk n) = true.
Proof. induction n as [|n IH]; [reflexivity | exact IH]. Qed.

(** With the status endpoint out of reach, the number of reads grows with
    the number of ticks. *)
Lemma reads_unbounded n :
  count is_fetch (trace (run (repeat NotOk n))) = S n.
Proof.
  destruct (failing_run (repeat NotOk n) mount 0 2000%Z (all_fail_repeat n)
              eq_refl eq_refl eq_refl) as (_ & _ & _ & _ & _ & H & _).
  unfold run. rewrite H, repeat_length. reflexivity.
Qed.

End ProgressProps.

(** * Properties of [pollVideoStatus] over JavaScript numbers *)
Module JsProps.

Import Js.

Lemma number_delays_app (t : list Action) (a : Action) :
  delays (t ++ [a]) =
  delays t ++ match delay_of a with Some d => [d] | None => [] end.
Proof.
  induction t as [|b t IH]; simpl.
  - destruct (delay_of a); reflexivity.
  - rewrite IH. destruct (delay_of b); reflexivity.
Qed.

(** [Math.min(x, 30000)] is NaN exactly for a NaN argument, and otherwise
    at most 30000. *)
Lemma min_cap (x : Number) :
  Math_min x (Finite 30000) = NaN \/
  leb (Math_min x (Finite 30000)) (Finite 30000) = true.
Proof.
  destruct x as [| | |q]; cbn; auto.
  destruct (Qle_bool q 30000) eqn:E; cbn; auto.
Qed.

Lemma min_nan (x : Number) :
  Math_min x (Finite 30000) = NaN <-> x = NaN.
Proof.
  destruct x as [| | |q]; cbn; split; intros H; try discriminate; auto.
  destruct (Qle_bool q 30000); discriminate.
Qed.

Lemma Qle_bool_trans (x y z : Q) :
  Qle_bool x y = true -> Qle_bool y z = true -> Qle_bool x z = true.
Proof.
  rewrite !Qle_bool_iff. apply Qle_trans.
Qed.

(** [Math.min(., 30000)] keeps the order of its arguments. *)
Lemma min_mono (x y : Number) :
  leb x y = true ->
  leb (Math_min x (Finite 30000)) (Math_min y (Finite 30000)) = true.
Proof.
  destruct x as [| | |p], y as [| | |q]; cbn; try discriminate;
    try reflexivity; intros H;
    repeat match goal with
    | |- context [Qle_bool ?a 30000] =>
        let E := fresh "E" in destruct (Qle_bool a 30000) eqn:E
    end; cbn; try reflexivity; try assumption.
  rewrite (Qle_bool_trans _ _ _ H E0) in E. discriminate.
Qed.

(** [attempts >= maxAttempts] is the integer comparison with [limit]. *)
Lemma limit_some (mx : Number) (m : Z) :
  limit mx = Some m ->
  forall a, leb mx (of_nat a) = (m <=? Z.of_nat a)%Z.
Proof.
  destruct mx as [| | |q]; cbn [limit]; intros [= <-] a; cbn.
  - symmetry. apply Z.leb_le. lia.
  - apply eq_true_iff_eq. rewrite Qle_bool_iff, Z.leb_le. split; intros H.
    + apply Qceiling_resp_le in H. rewrite Qceiling_Z in H. exact H.
    + eapply Qle_trans; [apply Qle_ceiling|].
      rewrite <- Zle_Qle. exact H.
Qed.

Lemma limit_none (mx : Number) :
  limit mx = None -> forall a, leb mx (of_nat a) = false.
Proof.
  destruct mx as [| | |q]; cbn [limit]; intros H a;
    try discriminate; reflexivity.
Qed.

Section Runs.

Variable maxAttempts : Number.
Variable interval : Number.
Variable Math_pow : Number -> Number -> Number.
Variable times : Number -> Number -> Number.

Local Abbreviation backoffInterval :=
  (backoffInterval interval Math_pow times).
Local Abbreviation poll_resume :=
  (poll_resume maxAttempts interval Math_pow times).
Local Abbreviation step := (step maxAttempts interval Math_pow times).
Local Abbreviation run_from := (run_from maxAttempts interval Math_pow times).
Local Abbreviation pollVideoStatus :=
  (pollVideoStatus maxAttempts interval Math_pow times).
Local Abbreviation delay_after := (delay_after interval Math_pow times).

(** What the continuation of [poll] does to a pending read: it settles
    the promise, or, the ceiling test being false and the result not
    terminal, it arms one timer. *)
Lemma resume_cases (r : Api.ReadResult) (a : nat) (tr : list Action) :
  (exists o tr',
     poll_resume r (mkPoll a None 0 0 tr) = mkPoll a (Some o) 0 0 tr' /\
     count is_read tr' = count is_read tr /\
     delays tr' = delays tr /\
     (keeps_polling r = true -> leb maxAttempts (of_nat a) = true)) \/
  (exists tr',
     poll_resume r (mkPoll a None 0 0 tr) = mkPoll a None 0 1 tr' /\
     count is_read tr' = count is_read tr /\
     delays tr' = delays tr ++ [delay_after r a] /\
     keeps_polling r = true /\
     leb maxAttempts (of_nat a) = false).
Proof.
  destruct r as [s|e]; cbn [Js.poll_resume keeps_polling delay_after].
  - destruct (Api.status s =? "completed")%string eqn:Hc;
      [|destruct (Api.status s =? "failed")%string eqn:Hf;
        [|destruct (leb maxAttempts (of_nat a)) eqn:Hm]];
      cbn [emit attempts settled inflight timers trace] in *;
      rewrite ?Hm;
      [left | left | left | right];
      unfold do_resolve, do_reject, do_setTimeout, settle, emit;
      cbn [attempts settled inflight timers trace];
      repeat eexists;
      rewrite ?ApiProps.count_app, ?number_delays_app; cbn;
      rewrite ?app_nil_r; try reflexivity; try lia; try discriminate; auto.
  - destruct (leb maxAttempts (of_nat a)) eqn:Hm;
      cbn [emit attempts settled inflight timers trace] in *;
      rewrite ?Hm;
      [left | right];
      unfold do_resolve, do_reject, do_setTimeout, settle, emit;
      cbn [attempts settled inflight timers trace];
      repeat eexists;
      rewrite ?ApiProps.count_app, ?number_delays_app; cbn;
      rewrite ?app_nil_r; try reflexivity; try lia; auto.
Qed.

(** One round of the run: the pending read is answered and the timer, if
    one was armed, fires. *)
Lemma run_cons (a : nat) (tr : list Action) (r : Api.ReadResult)
  (rs : list Api.ReadResult) :
  run_from (mkPoll a None 1 0 tr) (r :: rs) =
  let st1 := poll_resume r (mkPoll a None 0 0 tr) in
  match timers st1 with
  | O => st1
  | S n =>
      run_from (poll_enter (mkPoll (attempts st1) (settled st1) (inflight st1)
                              n (trace st1))) rs
  end.
Proof.
  cbn [Js.run_from Js.step inflight attempts settled timers trace]. cbn zeta.
  destruct (timers (poll_resume r (mkPoll a None 0 0 tr))); reflexivity.
Qed.

Lemma run_settled (a : nat) (o : Api.Settlement) (tr : list Action)
  (rs : list Api.ReadResult) :
  run_from (mkPoll a (Some o) 0 0 tr) rs = mkPoll a (Some o) 0 0 tr.
Proof. destruct rs; reflexivity. Qed.

(** The shape of every run: [attempts] reads have been issued; a run that
    is still polling has consumed all its results and has one read pending,
    a settled one has nothing pending. *)
Lemma run_shape (rs : list Api.ReadResult) : forall a tr,
  let st := run_from (mkPoll a None 1 0 tr) rs in
  count is_read (trace st) = (count is_read tr + (attempts st - a))%nat /\
  (a <= attempts st)%nat /\
  match settled st with
  | None =>
      attempts st = (a + length rs)%nat /\ inflight st = 1%nat /\
      timers st = 0%nat
  | Some _ => inflight st = 0%nat /\ timers st = 0%nat
  end.
Proof.
  induction rs as [|r rs IH]; intros a tr.
  - cbn; unfold count in *; repeat split; lia.
  - cbn zeta. rewrite run_cons. cbn zeta.
    destruct (resume_cases r a tr)
      as [(o & tr' & -> & Hc & _)|(tr' & -> & Hc & _)].
    + cbn; unfold count in *; repeat split; lia.
    + cbn [timers attempts settled inflight trace].
      unfold poll_enter, emit.
      cbn [timers attempts settled inflight trace].
      specialize (IH (S a) (tr' ++ [GetVideoStatus])).
      cbn zeta in IH. destruct IH as (H1 & H2 & H3).
      rewrite ApiProps.count_app in H1. cbn [is_read] in H1.
      split; [lia|]. split; [lia|].
      destruct (settled _); [exact H3|].
      cbn [length]. destruct H3 as (H3 & H4 & H5). repeat split; lia.
Qed.

(** Every delay of a run is [interval] or a backoff. *)
Lemma run_delays (P : Number -> Prop) (rs : list Api.ReadResult) :
  P interval -> (forall k, P (backoffInterval k)) ->
  forall a tr,
  Forall P (delays tr) ->
  Forall P (delays (trace (run_from (mkPoll a None 1 0 tr) rs))).
Proof.
  intros Hi Hb. induction rs as [|r rs IH]; intros a tr Htr.
  - exact Htr.
  - rewrite run_cons. cbn zeta.
    destruct (resume_cases r a tr)
      as [(o & tr' & -> & _ & Hd & _)|(tr' & -> & _ & Hd & _)].
    + cbn. rewrite Hd. exact Htr.
    + cbn [timers attempts settled inflight trace].
      unfold poll_enter, emit.
      cbn [timers attempts settled inflight trace].
      apply IH. rewrite number_delays_app, Hd. cbn [delay_of]. rewrite app_nil_r.
      apply Forall_app. split; [exact Htr|].
      constructor; [|constructor].
      destruct r; cbn [delay_after]; auto.
Qed.

(** A run that is still polling after its last result: the delay the
    pending read was scheduled with. *)
Lemma run_last_delay (rs : list Api.ReadResult) : forall a tr r,
  let st := run_from (mkPoll a None 1 0 tr) (rs ++ [r]) in
  settled st = None ->
  attempts st = (a + length rs + 1)%nat /\
  last (delays (trace st)) NaN = delay_after r (a + length rs).
Proof.
  induction rs as [|r0 rs IH]; intros a tr r; cbn zeta; cbn [app].
  - rewrite run_cons. cbn zeta.
    destruct (resume_cases r a tr)
      as [(o & tr' & -> & _)|(tr' & -> & _ & Hd & _)].
    + cbn. discriminate.
    + cbn [timers attempts settled inflight trace run_from].
      unfold poll_enter, emit.
      cbn [timers attempts settled inflight trace length].
      intros _. split; [lia|].
      rewrite number_delays_app, Hd. cbn [delay_of]. rewrite app_nil_r, last_last.
      replace (a + 0)%nat with a by lia. reflexivity.
  - rewrite run_cons. cbn zeta.
    destruct (resume_cases r0 a tr)
      as [(o & tr' & -> & _)|(tr' & -> & _)].
    + cbn [timers]. cbn. discriminate.
    + cbn [timers attempts settled inflight trace].
      unfold poll_enter, emit.
      cbn [timers attempts settled inflight trace length].
      intros Hs.
      destruct (IH (S a) (tr' ++ [GetVideoStatus]) r Hs) as [H1 H2].
      split; [lia|].
      rewrite H2. f_equal. lia.
Qed.

Lemma step_prefix (st : PollState) (ev : Api.Event) (st' : PollState) :
  step st ev = Some st' -> exists t, trace st' = trace st ++ t.
Proof.
  destruct ev as [r|]; cbn [Js.step].
  - destruct (inflight st); [discriminate|]. intros [= <-].
    destruct r as [s|e]; cbn [Js.poll_resume];
      repeat match goal with
      | |- context [if ?b then _ else _] => destruct b
      end;
      unfold do_resolve, do_reject, do_setTimeout, settle, emit;
      cbn [attempts settled inflight timers trace];
      rewrite <- ?app_assoc; eexists; reflexivity.
  - destruct (timers st); [discriminate|]. intros [= <-].
    unfold poll_enter, emit. cbn [attempts settled inflight timers trace].
    eexists; reflexivity.
Qed.

(** A run only adds to the trace. *)
Lemma run_prefix (rs : list Api.ReadResult) : forall st,
  exists t, trace (run_from st rs) = trace st ++ t.
Proof.
  induction rs as [|r rs IH]; intros st; cbn [Js.run_from].
  - exists []. rewrite app_nil_r. reflexivity.
  - destruct (step st (Api.ReadDone r)) as [st1|] eqn:H1;
      [|exists []; rewrite app_nil_r; reflexivity].
    destruct (step_prefix _ _ _ H1) as [t1 E1].
    destruct (step st1 Api.TimerFired) as [st2|] eqn:H2;
      [|exists t1; exact E1].
    destruct (step_prefix _ _ _ H2) as [t2 E2].
    destruct (IH st2) as [t3 E3].
    exists (t1 ++ t2 ++ t3). rewrite E3, E2, E1, <- !app_assoc. reflexivity.
Qed.

(** Every read but the first follows one [setTimeout]. *)
Lemma run_delay_count (rs : list Api.ReadResult) : forall a tr,
  let st := run_from (mkPoll a None 1 0 tr) rs in
  length (delays (trace st)) = (length (delays tr) + (attempts st - a))%nat.
Proof.
  induction rs as [|r rs IH]; intros a tr.
  - cbn. lia.
  - cbn zeta. rewrite run_cons. cbn zeta.
    destruct (resume_cases r a tr)
      as [(o & tr' & -> & _ & Hd & _)|(tr' & -> & _ & Hd & _)].
    + cbn. rewrite Hd. lia.
    + cbn [timers attempts settled inflight trace].
      unfold poll_enter, emit.
      cbn [timers attempts settled inflight trace].
      pose proof (run_shape rs (S a) (tr' ++ [GetVideoStatus])) as (_ & Hle & _).
      specialize (IH (S a) (tr' ++ [GetVideoStatus])). cbn zeta in IH.
      rewrite IH, number_delays_app, Hd. cbn [delay_of].
      rewrite app_nil_r, length_app. cbn [length]. lia.
Qed.

(** While the reads succeed, every delay is [interval]. *)
Lemma healthy_run_delays (ss : list Api.VideoStatusResponse) : forall a tr,
  let st := run_from (mkPoll a None 1 0 tr) (map Api.Fulfilled ss) in
  delays (trace st) = delays tr ++ repeat interval (attempts st - a).
Proof.
  induction ss as [|s ss IH]; intros a tr.
  - cbn. rewrite Nat.sub_diag. cbn. rewrite app_nil_r. reflexivity.
  - cbn zeta. cbn [map]. rewrite run_cons. cbn zeta.
    destruct (resume_cases (Api.Fulfilled s) a tr)
      as [(o & tr' & -> & _ & Hd & _)|(tr' & -> & _ & Hd & _)].
    + cbn. rewrite Hd, Nat.sub_diag. cbn. rewrite app_nil_r. reflexivity.
    + cbn [timers attempts settled inflight trace].
      unfold poll_enter, emit.
      cbn [timers attempts settled inflight trace].
      pose proof (run_shape (map Api.Fulfilled ss) (S a)
                    (tr' ++ [GetVideoStatus])) as (_ & Hle & _).
      specialize (IH (S a) (tr' ++ [GetVideoStatus])). cbn zeta in IH.
      rewrite IH, number_delays_app, Hd. cbn [delay_of delay_after].
      rewrite app_nil_r, <- app_assoc. f_equal.
      replace (attempts
                 (run_from (mkPoll (S a) None 1 0 (tr' ++ [GetVideoStatus]))
                    (map Api.Fulfilled ss)) - a)%nat
        with (S (attempts
                   (run_from (mkPoll (S a) None 1 0 (tr' ++ [GetVideoStatus]))
                      (map Api.Fulfilled ss)) - S a))%nat by lia.
      reflexivity.
Qed.

(** A run goes on exactly as long as no result is terminal and the
    ceiling test fails. *)
Lemma run_unsettled_iff (rs : list Api.ReadResult) : forall a tr,
  settled (run_from (mkPoll a None 1 0 tr) rs) = None <->
  forallb keeps_polling rs = true /\
  forall k, (k < length rs)%nat -> leb maxAttempts (of_nat (a + k)) = false.
Proof.
  induction rs as [|r rs IH]; intros a tr.
  - cbn. split; [|reflexivity]. intros _. split; [reflexivity|]. lia.
  - rewrite run_cons. cbn zeta.
    destruct (resume_cases r a tr)
      as [(o & tr' & -> & _ & _ & Hk)|(tr' & -> & _ & _ & Hk & Hf)].
    + cbn [timers settled]. split; [discriminate|].
      intros [Hall Hle]. cbn [forallb] in Hall.
      apply andb_prop in Hall. destruct Hall as [Hr _].
      specialize (Hle 0%nat ltac:(cbn; lia)).
      replace (a + 0)%nat with a in Hle by lia.
      rewrite (Hk Hr) in Hle. discriminate.
    + cbn [timers attempts settled inflight trace].
      unfold poll_enter, emit.
      cbn [timers attempts settled inflight trace].
      rewrite (IH (S a) (tr' ++ [GetVideoStatus])).
      cbn [forallb length]. rewrite Hk. cbn [andb].
      split; intros [Hall Hle]; (split; [exact Hall|]); intros k Hlt.
      * destruct k as [|k].
        -- replace (a + 0)%nat with a by lia. exact Hf.
        -- replace (a + S k)%nat with (S a + k)%nat by lia.
           apply Hle. lia.
      * replace (S a + k)%nat with (a + S k)%nat by lia. apply Hle. lia.
Qed.

(** With an integer [m] standing for [maxAttempts], no run goes beyond
    the ceiling of [m], and a run is settled once it has been given enough
    results to reach it. *)
Lemma run_bounded (m : Z) (rs : list Api.ReadResult) :
  (forall a, leb maxAttempts (of_nat a) = (m <=? Z.of_nat a)%Z) ->
  forall a tr,
  (1 <= a <= Api.ceiling m)%nat ->
  let st := run_from (mkPoll a None 1 0 tr) rs in
  (attempts st <= Api.ceiling m)%nat /\
  ((Api.ceiling m < a + length rs)%nat -> settled st <> None).
Proof.
  intros Hm. induction rs as [|r rs IH]; intros a tr Ha.
  - cbn. split; lia.
  - cbn zeta. rewrite run_cons. cbn zeta.
    destruct (resume_cases r a tr)
      as [(o & tr' & -> & _)|(tr' & -> & _ & _ & _ & Hf)].
    + cbn. split; [lia | discriminate].
    + cbn [timers attempts settled inflight trace].
      unfold poll_enter, emit.
      cbn [timers attempts settled inflight trace length].
      rewrite Hm in Hf. apply Z.leb_gt in Hf.
      assert (Ha' : (1 <= S a <= Api.ceiling m)%nat)
        by (unfold Api.ceiling in *; lia).
      destruct (IH (S a) (tr' ++ [GetVideoStatus]) Ha') as [H1 H2].
      split; [exact H1|]. intros Hlen. apply H2. lia.
Qed.

(** When [attempts >= maxAttempts] is never true, only a terminal status
    settles the promise. *)
Lemma run_unbounded (rs : list Api.ReadResult) :
  (forall a, leb maxAttempts (of_nat a) = false) ->
  forallb keeps_polling rs = true ->
  forall a tr,
  let st := run_from (mkPoll a None 1 0 tr) rs in
  settled st = None /\ attempts st = (a + length rs)%nat /\
  inflight st = 1%nat.
Proof.
  intros Hm. induction rs as [|r rs IH]; intros Hall a tr.
  - cbn; unfold count in *; repeat split; lia.
  - cbn [forallb] in Hall. apply andb_prop in Hall. destruct Hall as [Hr Hall].
    cbn zeta. rewrite run_cons. cbn zeta.
    destruct (resume_cases r a tr)
      as [(o & tr' & _ & _ & _ & Hf)|(tr' & -> & _)].
    + rewrite Hm in Hf. specialize (Hf Hr). discriminate.
    + cbn [timers attempts settled inflight trace].
      unfold poll_enter, emit.
      cbn [timers attempts settled inflight trace length].
      destruct (IH Hall (S a) (tr' ++ [GetVideoStatus])) as (H1 & H2 & H3).
      repeat split; [exact H1 | lia | exact H3].
Qed.

End Runs.

Lemma all_thrown_keep_polling (es : list JsError) :
  forallb keeps_polling (map Api.Thrown es) = true.
Proof. induction es as [|e es IH]; [reflexivity | exact IH]. Qed.

(** ** The integer, exact model is an instance *)

Lemma leb_inject_Z (x y : Z) :
  Qle_bool (inject_Z x) (inject_Z y) = (x <=? y)%Z.
Proof. unfold Qle_bool. cbn. rewrite !Z.mul_1_r. reflexivity. Qed.

Lemma min_exact (x y : Q) :
  Math_min (Finite x) (Finite y) = Finite (Qmin x y).
Proof.
  cbn. destruct (Qle_bool x y) eqn:E.
  - apply Qle_bool_iff in E. f_equal. symmetry.
    unfold Qmin, GenericMinMax.gmin.
    destruct (Qcompare x y) eqn:C; try reflexivity.
    apply Qgt_alt in C. exfalso. exact (Qlt_not_le _ _ C E).
  - f_equal. symmetry. unfold Qmin, GenericMinMax.gmin.
    destruct (Qcompare x y) eqn:C; try reflexivity.
    + apply Qeq_alt in C. assert (H : Qle_bool x y = true)
        by (apply Qle_bool_iff; rewrite C; apply Qle_refl). congruence.
    + apply Qlt_alt in C. assert (H : Qle_bool x y = true)
        by (apply Qle_bool_iff; apply Qlt_le_weak; exact C). congruence.
Qed.

Lemma backoff_exact (i : Q) (a : nat) :
  backoffInterval (Finite i) exact_pow exact_times a =
  Finite (Api.backoffInterval i a).
Proof.
  unfold backoffInterval, Api.backoffInterval, of_nat, exact_pow, exact_times.
  rewrite Qfloor_Z. apply min_exact.
Qed.

Section Exact.

Variable m : Z.
Variable i : Q.

Lemma of_state_emit (a : Api.Action) (st : Api.PollState) :
  of_state (Api.emit a st) = emit (of_action a) (of_state st).
Proof. unfold of_state, Api.emit, emit. cbn. rewrite map_app. reflexivity. Qed.

Lemma of_state_enter (st : Api.PollState) :
  of_state (Api.poll_enter st) = poll_enter (of_state st).
Proof.
  unfold of_state, Api.poll_enter, poll_enter, Api.emit, emit. cbn.
  rewrite map_app. reflexivity.
Qed.

Lemma of_state_resume (r : Api.ReadResult) (st : Api.PollState) :
  of_state (Api.poll_resume m i r st) =
  poll_resume (Finite (inject_Z m)) (Finite i) exact_pow exact_times r
    (of_state st).
Proof.
  destruct r as [s|e]; cbn [Api.poll_resume poll_resume].
  - destruct (Api.status s =? "completed")%string;
      [|destruct (Api.status s =? "failed")%string].
    + unfold of_state, Api.do_resolve, do_resolve, Api.settle, settle,
        Api.emit, emit. cbn. rewrite !map_app. reflexivity.
    + unfold of_state, Api.do_reject, do_reject, Api.settle, settle,
        Api.emit, emit. cbn. rewrite !map_app. reflexivity.
    + cbn [of_state emit attempts Api.emit Api.attempts leb of_nat].
      rewrite leb_inject_Z.
      destruct (m <=? Z.of_nat (Api.attempts st))%Z.
      * unfold of_state, Api.do_reject, do_reject, Api.settle, settle,
          Api.emit, emit. cbn. rewrite !map_app. reflexivity.
      * unfold of_state, Api.do_setTimeout, do_setTimeout, Api.emit, emit.
        cbn. rewrite !map_app. reflexivity.
  - cbn [of_state emit attempts Api.emit Api.attempts leb of_nat].
    rewrite leb_inject_Z.
    destruct (m <=? Z.of_nat (Api.attempts st))%Z.
    + unfold of_state, Api.do_reject, do_reject, Api.settle, settle,
        Api.emit, emit. cbn. rewrite !map_app. reflexivity.
    + rewrite backoff_exact.
      unfold of_state, Api.do_setTimeout, do_setTimeout, Api.emit, emit.
      cbn. rewrite !map_app. reflexivity.
Qed.

Lemma of_state_step (st : Api.PollState) (ev : Api.Event) :
  step (Finite (inject_Z m)) (Finite i) exact_pow exact_times (of_state st) ev =
  option_map of_state (Api.step m i st ev).
Proof.
  destruct ev as [r|]; cbn [step Api.step of_state inflight timers].
  - destruct (Api.inflight st); [reflexivity|].
    cbn [option_map]. rewrite of_state_resume. reflexivity.
  - destruct (Api.timers st); [reflexivity|].
    cbn [option_map]. rewrite of_state_enter. reflexivity.
Qed.

Lemma of_state_run (rs : list Api.ReadResult) : forall st,
  run_from (Finite (inject_Z m)) (Finite i) exact_pow exact_times
    (of_state st) rs =
  of_state (Api.run_from m i st rs).
Proof.
  induction rs as [|r rs IH]; intros st; [reflexivity|].
  cbn [run_from Api.run_from]. rewrite of_state_step.
  destruct (Api.step m i st (Api.ReadDone r)) as [st1|]; [|reflexivity].
  cbn [option_map]. rewrite of_state_step.
  destruct (Api.step m i st1 Api.TimerFired) as [st2|]; [|reflexivity].
  cbn [option_map]. apply IH.
Qed.

(** For an integer [maxAttempts], a finite [interval] and exact
    arithmetic, the run over numbers is the run of [Api]. *)
Lemma api_is_js_exact (rs : list Api.ReadResult) :
  pollVideoStatus (Finite (inject_Z m)) (Finite i) exact_pow exact_times rs =
  of_state (Api.pollVideoStatus m i rs).
Proof.
  unfold pollVideoStatus, Api.pollVideoStatus.
  rewrite <- of_state_run. reflexivity.
Qed.

End Exact.

End JsProps.

(** * The claims of the specification *)
Module Claims.

Import Api Samples.

(** C7, evaluated on both loops for a job that answers ['running'] and
    then ['completed'].  Each loop issues its first read at once and the
    second one base interval later ([setTimeout] with [interval],
    [setInterval] with 2000 ms).  [pollVideoStatus] stops at the terminal
    status: it resolves, and no read, timer or other event follows.
    [VideoGenerationProgress] does not: its timer stays armed, a third read
    has been issued 2000 ms after the one answered ['completed'], and the
    next tick issues a fourth. *)
Theorem component_reads_go_on_after_terminal_status :
  (let st := pollVideoStatus default_maxAttempts default_interval
               [Fulfilled (running 40); Fulfilled completed100;
                Fulfilled completed100] in
   trace st =
     [GetVideoStatus; OnProgress (running 40); SetTimeout default_interval;
      GetVideoStatus; OnProgress completed100; Resolve completed100] /\
   settled st = Some (Resolved completed100) /\
   step default_maxAttempts default_interval st TimerFired = None /\
   step default_maxAttempts default_interval st
     (ReadDone (Fulfilled completed100)) = None) /\
  (let st := Progress.run [Progress.OkJson (running 40);
                           Progress.OkJson completed100] in
   Progress.trace st =
     [Progress.Fetch 0; Progress.SetInterval 2000;
      Progress.SetStatus (running 40);
      Progress.Fetch 1;
      Progress.SetStatus completed100; Progress.SetIsPolling false;
      Progress.OnComplete completed100;
      Progress.Fetch 2] /\
   Progress.interval st = Some 2000%Z /\
   Progress.inflight st = [2%nat] /\
   option_map (fun st' => count Progress.is_fetch (Progress.trace st'))
     (Progress.step st Progress.Tick) = Some 4%nat).
Proof. vm_compute. repeat split. Qed.

(** C9.  [attempts] counts every read that is issued, whatever the reads
    return; and when [maxAttempts] reads in a row succeed with a status
    that is neither ['completed'] nor ['failed'], the promise is rejected
    with ['Video generation timeout'] at the last of them, although every
    one of them succeeded and was reported to [onProgress]. *)
Theorem healthy_reads_time_out_at_ceiling
  (maxAttempts : Z) (interval : Q) (ss : list VideoStatusResponse)
  (extra rs : list ReadResult) :
  (1 <= maxAttempts)%Z ->
  Z.of_nat (length ss) = maxAttempts ->
  Forall (fun s => Spec.terminal_status s = false) ss ->
  let st := pollVideoStatus maxAttempts interval (map Fulfilled ss ++ extra) in
  settled st = Some (Rejected (mkError "Video generation timeout")) /\
  count is_read (trace st) = length ss /\
  progressed (trace st) = ss /\
  attempts (pollVideoStatus maxAttempts interval rs) =
    count is_read (trace (pollVideoStatus maxAttempts interval rs)).
Proof.
  intros Hpos Hlen Hall st.
  assert (Hc : ceiling maxAttempts = length ss) by (unfold ceiling; lia).
  destruct ss as [|s ss]; [simpl in Hlen; lia|].
  destruct (ApiProps.all_pending_run maxAttempts interval ss extra s 1
              [GetVideoStatus] Hall ltac:(lia)
              ltac:(rewrite Hc; reflexivity)) as (Hs & Ha & Hp).
  change (mkPoll 1 None 1 0 [GetVideoStatus]) with start in Hs, Ha, Hp.
  change (run_from maxAttempts interval start (map Fulfilled (s :: ss) ++ extra))
    with st in Hs, Ha, Hp.
  split; [exact Hs|]. split.
  - subst st. rewrite <- ApiProps.run_reads, Ha. exact Hc.
  - split; [exact Hp | apply ApiProps.run_reads].
Qed.

Lemma healthy_reads_time_out_at_ceiling_witness :
  (1 <= default_maxAttempts)%Z /\
  Z.of_nat (length (repeat (running 20) 60)) = default_maxAttempts /\
  Forall (fun s => Spec.terminal_status s = false) (repeat (running 20) 60) /\
  settled (pollVideoStatus default_maxAttempts default_interval
             (map Fulfilled (repeat (running 20) 60) ++ [])) =
  Some (Rejected (mkError "Video generation timeout")).
Proof.
  assert (H1 : (1 <= default_maxAttempts)%Z) by (vm_compute; discriminate).
  assert (H2 : Z.of_nat (length (repeat (running 20) 60)) = default_maxAttempts)
    by (vm_compute; reflexivity).
  assert (H3 : Forall (fun s => Spec.terminal_status s = false)
                 (repeat (running 20) 60))
    by (apply Forall_forall; intros s Hin; apply repeat_spec in Hin;
        subst s; vm_compute; reflexivity).
  split; [exact H1|]. split; [exact H2|]. split; [exact H3|].
  exact (proj1 (healthy_reads_time_out_at_ceiling default_maxAttempts
                  default_interval (repeat (running 20) 60) [] [] H1 H2 H3)).
Defined.

(** C10.  In [VideoGenerationProgress] a read that ends in a non-2xx
    response or in an exception (network error, undecodable body) updates
    no state, invokes no callback, and leaves the polling timer as it is;
    at most [console.error] is called.  The component keeps no failure
    count and has no ceiling: when every read fails, each tick of the
    2000 ms timer issues one more read, without end and without any
    notification. *)
Theorem failed_read_is_only_logged
  (st : Progress.State) (id : nat) (r : Progress.FetchResult)
  (rs : list Progress.FetchResult) :
  existsb (Nat.eqb id) (Progress.inflight st) = true ->
  Progress.is_failure r = true ->
  forallb Progress.is_failure rs = true ->
  (exists st', Progress.step st (Progress.Response id r) = Some st' /\
     Progress.status st' = Progress.status st /\
     Progress.isPolling st' = Progress.isPolling st /\
     Progress.elapsedTime st' = Progress.elapsedTime st /\
     Progress.interval st' = Progress.interval st /\
     Progress.issued st' = Progress.issued st /\
     (Progress.trace st' = Progress.trace st \/
      exists e, Progress.trace st' =
                Progress.trace st ++ [Progress.ConsoleError e])) /\
  (let st' := Progress.run rs in
   count Progress.is_fetch (Progress.trace st') = S (length rs) /\
   Progress.interval st' = Some 2000%Z /\
   Progress.status st' = None /\
   Progress.isPolling st' = true /\
   count Progress.is_notification (Progress.trace st') = 0%nat).
Proof.
  intros Hin Hr Hall. split.
  - exact (ProgressProps.failed_read_is_silent st id r Hin Hr).
  - destruct (ProgressProps.failing_run rs Progress.mount 0 2000%Z Hall
                eq_refl eq_refl eq_refl) as (_ & H2 & H3 & H4 & H5 & H6 & _).
    cbn zeta. unfold Progress.run.
    rewrite H2, H3, H4, H5, H6. repeat split.
Qed.

Lemma failed_read_is_only_logged_witness :
  existsb (Nat.eqb 0) (Progress.inflight Progress.mount) = true /\
  Progress.is_failure (Progress.Throws errNet) = true /\
  forallb Progress.is_failure
    [Progress.NotOk; Progress.Throws errNet; Progress.NotOk] = true /\
  count Progress.is_fetch
    (Progress.trace
       (Progress.run [Progress.NotOk; Progress.Throws errNet; Progress.NotOk]))
  = 4%nat.
Proof.
  assert (H1 : existsb (Nat.eqb 0) (Progress.inflight Progress.mount) = true)
    by (vm_compute; reflexivity).
  assert (H2 : Progress.is_failure (Progress.Throws errNet) = true)
    by reflexivity.
  assert (H3 : forallb Progress.is_failure
            [Progress.NotOk; Progress.Throws errNet; Progress.NotOk] = true)
    by reflexivity.
  split; [exact H1|]. split; [exact H2|]. split; [exact H3|].
  exact (proj1 (proj2 (failed_read_is_only_logged Progress.mount 0
                         (Progress.Throws errNet) _ H1 H2 H3))).
Defined.

(** C2, as stated, fails: with the default parameters and sixty reads that
    all fail with a 503, the promise is rejected with the error of the
    sixtieth read, which is not the timeout error. *)
Lemma ceiling_error_is_not_timeout :
  let st := pollVideoStatus default_maxAttempts default_interval
              (repeat (Thrown err503) 60) in
  settled st = Some (Rejected err503) /\
  Spec.is_timeout err503 = false /\
  ~ (exists e, settled st = Some (Rejected e) /\ Spec.is_timeout e = true).
Proof.
  assert (H : settled (pollVideoStatus default_maxAttempts default_interval
                         (repeat (Thrown err503) 60)) =
              Some (Rejected err503)) by (vm_compute; reflexivity).
  cbn zeta. split; [exact H|]. split; [reflexivity|].
  intros (e & He & Ht). rewrite H in He. injection He as <-.
  vm_compute in Ht. discriminate.
Qed.

(** C2, amended.  When a run that is still polling meets failed reads up
    to the ceiling, the promise is rejected at the read that brings the
    number of reads to the ceiling, with the error thrown by that very
    read; exactly [ceiling] reads have been issued and no event can happen
    afterwards. *)
Theorem transport_failures_reject_with_last_error
  (maxAttempts : Z) (interval : Q) (rs0 : list ReadResult)
  (e : JsError) (es : list JsError) (extra : list ReadResult) (d : JsError) :
  settled (pollVideoStatus maxAttempts interval rs0) = None ->
  (length rs0 + S (length es) = ceiling maxAttempts)%nat ->
  let st := pollVideoStatus maxAttempts interval
              (rs0 ++ map Thrown (e :: es) ++ extra) in
  settled st = Some (Rejected (last (e :: es) d)) /\
  count is_read (trace st) = ceiling maxAttempts /\
  forall ev, step maxAttempts interval st ev = None.
Proof.
  intros Hs Hlen st.
  destruct (ApiProps.unsettled_shape _ _ _ Hs) as [tr Hshape].
  assert (Hst : st = run_from maxAttempts interval
                       (mkPoll (S (length rs0)) None 1 0 tr)
                       (map Thrown (e :: es) ++ extra)).
  { subst st. unfold pollVideoStatus.
    rewrite ApiProps.run_from_app by apply ApiProps.at_rest_start.
    fold (pollVideoStatus maxAttempts interval rs0). rewrite Hshape.
    reflexivity. }
  destruct (ApiProps.all_thrown_run maxAttempts interval es d extra e
              (S (length rs0)) tr ltac:(lia) ltac:(lia))
    as (Hset & Ha & _).
  rewrite <- Hst in Hset, Ha.
  split; [exact Hset|]. split.
  - subst st. rewrite <- ApiProps.run_reads. exact Ha.
  - intros ev. eapply ApiProps.settled_final; [|exact Hset].
    apply ApiProps.run_reachable.
Qed.

Lemma transport_failures_reject_with_last_error_witness :
  settled (pollVideoStatus 3 default_interval [Fulfilled (running 20)]) = None /\
  (length [Fulfilled (running 20)] + S (length [errNet]) = ceiling 3)%nat /\
  settled (pollVideoStatus 3 default_interval
             ([Fulfilled (running 20)] ++ map Thrown [err503; errNet] ++ []))
  = Some (Rejected errNet).
Proof.
  assert (H1 : settled (pollVideoStatus 3 default_interval
                          [Fulfilled (running 20)]) = None)
    by (vm_compute; reflexivity).
  assert (H2 : (length [Fulfilled (running 20)] + S (length [errNet]) =
                ceiling 3)%nat) by (vm_compute; reflexivity).
  split; [exact H1|]. split; [exact H2|].
  exact (proj1 (transport_failures_reject_with_last_error 3 default_interval
                  [Fulfilled (running 20)] err503 [errNet] [] err503 H1 H2)).
Defined.

(** C3, as stated, fails: with the default parameters, after a failed
    read, a successful one and another failed read, the consecutive-failure
    count is 1, for which the specification's delay is 7500 ms; the code
    waits 16875 ms, the backoff of three attempts.  The run that has only
    the success before the failure waits 11250 ms. *)
Lemma failure_counter_is_not_reset :
  let h := [Thrown err503; Fulfilled (running 20); Thrown err503] in
  let st := pollVideoStatus default_maxAttempts default_interval h in
  Spec.consecutive_failures h = 1%nat /\
  Spec.spec_retry_delay default_interval 1 == 7500 /\
  last (delays (trace st)) 0 == 16875 /\
  ~ last (delays (trace st)) 0 ==
    Spec.spec_retry_delay default_interval (Spec.consecutive_failures h) /\
  ~ last (delays (trace st)) 0 ==
    last (delays (trace (pollVideoStatus default_maxAttempts default_interval
                           [Fulfilled (running 20); Thrown err503]))) 0.
Proof.
  cbn zeta. split; [reflexivity|]. split; [vm_compute; reflexivity|].
  split; [vm_compute; reflexivity|].
  split; intros H; vm_compute in H; discriminate.
Qed.

(** C3, amended.  [pollVideoStatus] has no consecutive-failure counter;
    its backoff uses [attempts], which counts every read and is never
    reset.  For a run that is still polling after its last result [r]:
    [attempts] is the number of reads issued (the results consumed and the
    read now pending); after a success the pending read was scheduled after
    [interval], also when failures came before; after a failure it was
    scheduled after the backoff of the number of reads issued until then,
    successful or not. *)
Theorem delay_after_success_is_base_interval
  (maxAttempts : Z) (interval : Q) (rs : list ReadResult) (r : ReadResult) :
  let st := pollVideoStatus maxAttempts interval (rs ++ [r]) in
  settled st = None ->
  attempts st = (length rs + 2)%nat /\
  count is_read (trace st) = (length rs + 2)%nat /\
  last (delays (trace st)) 0 =
    match r with
    | Fulfilled _ => interval
    | Thrown _ => backoffInterval interval (length rs + 1)
    end.
Proof.
  intros st Hs.
  destruct (ApiProps.run_snoc_unsettled maxAttempts interval rs r Hs)
    as [Ha Hd].
  split; [exact Ha|]. split; [|exact Hd].
  subst st. rewrite <- ApiProps.run_reads. exact Ha.
Qed.

Lemma delay_after_success_is_base_interval_witness :
  settled (pollVideoStatus default_maxAttempts default_interval
             ([Thrown err503; Thrown errNet] ++ [Fulfilled (running 20)]))
  = None /\
  last (delays (trace (pollVideoStatus default_maxAttempts default_interval
             ([Thrown err503; Thrown errNet] ++ [Fulfilled (running 20)])))) 0
  = default_interval.
Proof.
  assert (H : settled (pollVideoStatus default_maxAttempts default_interval
             ([Thrown err503; Thrown errNet] ++ [Fulfilled (running 20)]))
              = None) by (vm_compute; reflexivity).
  split; [exact H|].
  exact (proj2 (proj2 (delay_after_success_is_base_interval
                         default_maxAttempts default_interval
                         [Thrown err503; Thrown errNet]
                         (Fulfilled (running 20)) H))).
Defined.

(** C8, as stated, fails: with the default parameters, after one
    successful read and one failed read the consecutive-failure count is 1,
    for which the stated delay is 5000 * 1.5 = 7500 ms; the code waits
    5000 * 1.5^2 = 11250 ms. *)
Lemma backoff_exponent_is_not_failure_count :
  let h := [Fulfilled (running 20); Thrown err503] in
  let st := pollVideoStatus default_maxAttempts default_interval h in
  Spec.consecutive_failures h = 1%nat /\
  last (delays (trace st)) 0 == 11250 /\
  ~ last (delays (trace st)) 0 ==
    Spec.spec_retry_delay default_interval (Spec.consecutive_failures h).
Proof.
  cbn zeta. split; [reflexivity|]. split; [vm_compute; reflexivity|].
  intros H; vm_compute in H; discriminate.
Qed.

(** C8, amended, over JavaScript numbers; [Math.pow] and the product of
    doubles are whatever the engine computes.  After a failed read that
    leaves the run polling, the next read is scheduled after
    [Math.min(interval * Math.pow(1.5, attempts), 30000)], [attempts] being
    the number of reads issued so far, successful or failed.  In every run,
    each delay handed to [setTimeout] is [interval], or NaN, or at most
    30000; a backoff is NaN exactly when the product is.  The backoff does
    not decrease from one attempt count to another whenever the product
    does not. *)
Theorem retry_delay_is_capped_product_at_attempts
  (Math_pow times : Js.Number -> Js.Number -> Js.Number)
  (maxAttempts interval : Js.Number) (rs rs' : list ReadResult) (e : JsError)
  (k k' : nat) :
  (let st := Js.pollVideoStatus maxAttempts interval Math_pow times
               (rs ++ [Thrown e]) in
   Js.settled st = None ->
   count Js.is_read (Js.trace st) = (length rs + 2)%nat /\
   last (Js.delays (Js.trace st)) Js.NaN =
     Js.Math_min
       (times interval (Math_pow (Js.Finite (3 # 2)) (Js.of_nat (length rs + 1))))
       (Js.Finite 30000)) /\
  Forall (Js.capped_or_base interval)
    (Js.delays (Js.trace (Js.pollVideoStatus maxAttempts interval Math_pow times
                            rs'))) /\
  (Js.backoffInterval interval Math_pow times k = Js.NaN <->
   times interval (Math_pow (Js.Finite (3 # 2)) (Js.of_nat k)) = Js.NaN) /\
  (Js.leb (times interval (Math_pow (Js.Finite (3 # 2)) (Js.of_nat k)))
          (times interval (Math_pow (Js.Finite (3 # 2)) (Js.of_nat k'))) = true ->
   Js.leb (Js.backoffInterval interval Math_pow times k)
          (Js.backoffInterval interval Math_pow times k') = true).
Proof.
  split; [|split; [|split]].
  - cbn zeta. intros Hs. unfold Js.pollVideoStatus in *.
    change (Js.start) with (Js.mkPoll 1 None 1 0 [Js.GetVideoStatus]) in *.
    destruct (JsProps.run_last_delay maxAttempts interval Math_pow times rs 1
                [Js.GetVideoStatus] (Thrown e) Hs) as [Ha Hd].
    destruct (JsProps.run_shape maxAttempts interval Math_pow times
                (rs ++ [Thrown e]) 1 [Js.GetVideoStatus]) as (Hc & _ & _).
    split.
    + rewrite Hc, Ha. cbn. lia.
    + rewrite Hd. cbn [Js.delay_after]. unfold Js.backoffInterval.
      replace (1 + length rs)%nat with (length rs + 1)%nat by lia.
      reflexivity.
  - unfold Js.pollVideoStatus.
    change (Js.start) with (Js.mkPoll 1 None 1 0 [Js.GetVideoStatus]).
    apply JsProps.run_delays.
    + left. reflexivity.
    + intros j. right. unfold Js.backoffInterval.
      destruct (JsProps.min_cap
                  (times interval (Math_pow (Js.Finite (3 # 2)) (Js.of_nat j))));
        auto.
    + constructor.
  - apply JsProps.min_nan.
  - apply JsProps.min_mono.
Qed.

Lemma retry_delay_is_capped_product_at_attempts_witness :
  Js.settled (Js.pollVideoStatus (Js.Finite 60) (Js.Finite 5000)
                Js.exact_pow Js.exact_times
                ([Fulfilled (running 20)] ++ [Thrown err503])) = None /\
  Js.leb (Js.exact_times (Js.Finite 5000)
            (Js.exact_pow (Js.Finite (3 # 2)) (Js.of_nat 4)))
         (Js.exact_times (Js.Finite 5000)
            (Js.exact_pow (Js.Finite (3 # 2)) (Js.of_nat 5))) = true /\
  count Js.is_read
    (Js.trace (Js.pollVideoStatus (Js.Finite 60) (Js.Finite 5000)
                 Js.exact_pow Js.exact_times
                 ([Fulfilled (running 20)] ++ [Thrown err503]))) =
    (length [Fulfilled (running 20)] + 2)%nat /\
  Js.leb (Js.backoffInterval (Js.Finite 5000) Js.exact_pow Js.exact_times 4)
         (Js.backoffInterval (Js.Finite 5000) Js.exact_pow Js.exact_times 5)
    = true.
Proof.
  assert (H1 : Js.settled (Js.pollVideoStatus (Js.Finite 60) (Js.Finite 5000)
                Js.exact_pow Js.exact_times
                ([Fulfilled (running 20)] ++ [Thrown err503])) = None)
    by (vm_compute; reflexivity).
  assert (H2 : Js.leb (Js.exact_times (Js.Finite 5000)
            (Js.exact_pow (Js.Finite (3 # 2)) (Js.of_nat 4)))
         (Js.exact_times (Js.Finite 5000)
            (Js.exact_pow (Js.Finite (3 # 2)) (Js.of_nat 5))) = true)
    by (vm_compute; reflexivity).
  split; [exact H1|]. split; [exact H2|]. split.
  - exact (proj1 (proj1 (retry_delay_is_capped_product_at_attempts
                           Js.exact_pow Js.exact_times (Js.Finite 60)
                           (Js.Finite 5000) [Fulfilled (running 20)] []
                           err503 4 5) H1)).
  - exact (proj2 (proj2 (proj2 (retry_delay_is_capped_product_at_attempts
                           Js.exact_pow Js.exact_times (Js.Finite 60)
                           (Js.Finite 5000) [Fulfilled (running 20)] []
                           err503 4 5))) H2).
Defined.

(** C5, as stated, fails for [VideoGenerationProgress]: when every read
    gets a non-2xx answer, a hundred ticks leave a hundred and one reads
    issued, more than the ceiling of sixty, and no bound holds for all
    numbers of ticks. *)
Lemma component_reads_exceed_any_ceiling :
  count Progress.is_fetch
    (Progress.trace (Progress.run (repeat Progress.NotOk 100))) = 101%nat /\
  ~ (exists bound, forall n,
       (count Progress.is_fetch
          (Progress.trace (Progress.run (repeat Progress.NotOk n)))
        <= bound)%nat).
Proof.
  split; [apply ProgressProps.reads_unbounded|].
  intros (bound & H). specialize (H bound).
  rewrite ProgressProps.reads_unbounded in H. lia.
Qed.

(** C5, amended, over JavaScript numbers.  Let [maxAttempts] be a number
    for which [attempts >= maxAttempts] becomes true: a finite one, whose
    ceiling is the integer [m], or minus infinity ([m] is 0); [m] is at most
    2^53, up to which the counter is exact.  Then no run of
    [pollVideoStatus] issues more than [ceiling m] reads (that is [m], or
    one when [m] is not positive), whatever the reads return; and once
    [ceiling m] results have been consumed the promise has settled and
    nothing is pending.  For NaN and plus infinity the comparison is never
    true: as long as no read reports ['completed'] or ['failed'], and so
    under sustained failure, the promise never settles and every result is
    followed by a further read.  The polling loop of
    [VideoGenerationProgress] has no ceiling at all: while every read fails
    it issues one read per tick. *)
Theorem poll_terminates_iff_ceiling_is_reachable
  (Math_pow times : Js.Number -> Js.Number -> Js.Number)
  (interval maxAttempts never : Js.Number) (m : Z)
  (rs rs' : list ReadResult) (n : nat) :
  Js.limit maxAttempts = Some m -> (m <= 2 ^ 53)%Z ->
  Js.limit never = None ->
  (count Js.is_read
     (Js.trace (Js.pollVideoStatus maxAttempts interval Math_pow times rs))
   <= ceiling m)%nat /\
  ((ceiling m <= length rs)%nat ->
   let st := Js.pollVideoStatus maxAttempts interval Math_pow times rs in
   Js.settled st <> None /\
   forall ev, Js.step maxAttempts interval Math_pow times st ev = None) /\
  (forallb Js.keeps_polling rs' = true ->
   let st := Js.pollVideoStatus never interval Math_pow times rs' in
   Js.settled st = None /\ Js.inflight st = 1%nat /\
   count Js.is_read (Js.trace st) = S (length rs')) /\
  count Progress.is_fetch
    (Progress.trace (Progress.run (repeat Progress.NotOk n))) = S n.
Proof.
  intros Hm _ Hn.
  pose proof (JsProps.limit_some _ _ Hm) as Hle.
  pose proof (JsProps.limit_none _ Hn) as Hnever.
  assert (Hc1 : (1 <= 1 <= ceiling m)%nat) by (unfold ceiling; lia).
  unfold Js.pollVideoStatus.
  change (Js.start) with (Js.mkPoll 1 None 1 0 [Js.GetVideoStatus]).
  destruct (JsProps.run_shape maxAttempts interval Math_pow times rs 1
              [Js.GetVideoStatus]) as (Hc & H1 & Hsh).
  destruct (JsProps.run_bounded maxAttempts interval Math_pow times m rs Hle 1
              [Js.GetVideoStatus] Hc1) as [Hb Hs].
  split; [|split; [|split]].
  - rewrite Hc. cbn. lia.
  - intros Hlen. cbn zeta. split; [apply Hs; lia|].
    specialize (Hs ltac:(lia)).
    destruct (Js.settled _) as [o|]; [|congruence].
    destruct Hsh as [Hi Ht]. intros [r|]; cbn [Js.step].
    + rewrite Hi. reflexivity.
    + rewrite Ht. reflexivity.
  - intros Hall. cbn zeta.
    destruct (JsProps.run_unbounded never interval Math_pow times rs' Hnever
                Hall 1 [Js.GetVideoStatus]) as (U1 & U2 & U3).
    destruct (JsProps.run_shape never interval Math_pow times rs' 1
                [Js.GetVideoStatus]) as (Uc & _ & _).
    split; [exact U1|]. split; [exact U3|].
    rewrite Uc, U2. cbn. lia.
  - apply ProgressProps.reads_unbounded.
Qed.

Lemma poll_terminates_iff_ceiling_is_reachable_witness :
  Js.limit (Js.Finite (5 # 2)) = Some 3%Z /\ (3 <= 2 ^ 53)%Z /\
  Js.limit Js.PosInf = None /\
  (ceiling 3 <= length (repeat (Thrown errNet) 3))%nat /\
  forallb Js.keeps_polling [Thrown errNet; Fulfilled (running 20)] = true /\
  Js.settled (Js.pollVideoStatus (Js.Finite (5 # 2)) (Js.Finite 5000)
                Js.exact_pow Js.exact_times (repeat (Thrown errNet) 3))
    <> None /\
  Js.settled (Js.pollVideoStatus Js.PosInf (Js.Finite 5000)
                Js.exact_pow Js.exact_times
                [Thrown errNet; Fulfilled (running 20)]) = None.
Proof.
  assert (H1 : Js.limit (Js.Finite (5 # 2)) = Some 3%Z)
    by (vm_compute; reflexivity).
  assert (H2 : (3 <= 2 ^ 53)%Z) by (vm_compute; discriminate).
  assert (H3 : Js.limit Js.PosInf = None) by reflexivity.
  assert (H4 : (ceiling 3 <= length (repeat (Thrown errNet) 3))%nat)
    by (vm_compute; repeat constructor).
  assert (H5 : forallb Js.keeps_polling
                 [Thrown errNet; Fulfilled (running 20)] = true)
    by (vm_compute; reflexivity).
  split; [exact H1|]. split; [exact H2|]. split; [exact H3|].
  split; [exact H4|]. split; [exact H5|]. split.
  - exact (proj1 (proj1 (proj2 (poll_terminates_iff_ceiling_is_reachable
             Js.exact_pow Js.exact_times (Js.Finite 5000) (Js.Finite (5 # 2))
             Js.PosInf 3 (repeat (Thrown errNet) 3)
             [Thrown errNet; Fulfilled (running 20)] 0 H1 H2 H3)) H4)).
  - exact (proj1 (proj1 (proj2 (proj2 (poll_terminates_iff_ceiling_is_reachable
             Js.exact_pow Js.exact_times (Js.Finite 5000) (Js.Finite (5 # 2))
             Js.PosInf 3 (repeat (Thrown errNet) 3)
             [Thrown errNet; Fulfilled (running 20)] 0 H1 H2 H3))) H5)).
Defined.

(** C6, as stated, fails for [VideoGenerationProgress]: a tick of the
    polling timer that comes before the first read is answered leaves two
    reads in flight. *)
Lemma component_reads_overlap :
  option_map Progress.inflight
    (Progress.exec Progress.mount [Progress.Tick]) = Some [0%nat; 1%nat] /\
  ~ (forall st, Progress.reachable st ->
                (length (Progress.inflight st) <= 1)%nat).
Proof.
  split; [vm_compute; reflexivity|].
  intros H.
  assert (Hr : Progress.reachable (Progress.pollStatus_enter Progress.mount))
    by (apply (Progress.reach_step Progress.mount Progress.Tick);
        [constructor | reflexivity]).
  specialize (H _ Hr). vm_compute in H. lia.
Qed.

(** C6, amended.  In [pollVideoStatus] at most one thing is pending at any
    time, a read or a timer: a read is issued only when the timer armed
    after the previous answer fires, and [onProgress] gets the statuses in
    the order the answers arrived.  In [VideoGenerationProgress] the timer
    issues a read at every tick whether or not the earlier reads have been
    answered, so [n] unanswered ticks leave [n + 1] reads in flight; the
    statuses are handed to [setStatus] in the order the answers arrived. *)
Theorem one_read_at_a_time_in_poll_only
  (maxAttempts : Z) (interval : Q) (evs : list Event) (st : PollState)
  (pevs : list Progress.Event) (pst : Progress.State) (n : nat) :
  exec maxAttempts interval start evs = Some st ->
  Progress.exec Progress.mount pevs = Some pst ->
  (inflight st + timers st <= 1)%nat /\
  progressed (trace st) = fulfilled evs /\
  (exists pst', Progress.exec Progress.mount (repeat Progress.Tick n) = Some pst'
                /\ length (Progress.inflight pst') = S n) /\
  Progress.statuses_set (Progress.trace pst) = Progress.bodies pevs.
Proof.
  intros He Hp. split; [|split; [|split]].
  - apply ApiProps.one_pending with (maxAttempts := maxAttempts)
                                    (interval := interval).
    eapply ApiProps.exec_reachable; [constructor | exact He].
  - exact (ApiProps.exec_progressed _ _ _ _ _ He).
  - destruct (ProgressProps.ticks_pile_up n Progress.mount 2000%Z eq_refl)
      as (pst' & Hex & Hl & _).
    exists pst'. split; [exact Hex|]. rewrite Hl. reflexivity.
  - exact (proj2 (proj2 (ProgressProps.exec_frame _ _ _ Hp))).
Qed.

Lemma one_read_at_a_time_in_poll_only_witness :
  exec default_maxAttempts default_interval start
    [ReadDone (Thrown errNet); TimerFired; ReadDone (Fulfilled (running 20))]
  <> None /\
  Progress.exec Progress.mount
    [Progress.Tick; Progress.Response 1 (Progress.OkJson (running 20));
     Progress.Response 0 (Progress.OkJson queued0)] <> None /\
  exists pst', Progress.exec Progress.mount (repeat Progress.Tick 2) = Some pst'
               /\ length (Progress.inflight pst') = 3%nat.
Proof.
  destruct (exec default_maxAttempts default_interval start
    [ReadDone (Thrown errNet); TimerFired; ReadDone (Fulfilled (running 20))])
    as [st|] eqn:E1; [|vm_compute in E1; discriminate].
  destruct (Progress.exec Progress.mount
    [Progress.Tick; Progress.Response 1 (Progress.OkJson (running 20));
     Progress.Response 0 (Progress.OkJson queued0)])
    as [pst|] eqn:E2; [|vm_compute in E2; discriminate].
  split; [discriminate|]. split; [discriminate|].
  exact (proj1 (proj2 (proj2 (one_read_at_a_time_in_poll_only _ _ _ _ _ _ 2
                                E1 E2)))).
Defined.

(** C1, evaluated on [VideoGenerationProgress].  First run: the first
    read is answered ['completed'], the timer ticks, and the second read is
    answered ['completed'] again; [onComplete] is called twice, the polling
    timer is still armed and a third read has been issued, while
    [setIsPolling(false)] has only stopped the elapsed-time counter.
    Second run: a tick comes before the first answer, both reads are
    answered ['completed'], and the effect is cleaned up in between (the
    parent unmounts the component in its [onComplete] handler);
    [onComplete] is called again after [clearInterval]. *)
Theorem completion_is_notified_more_than_once :
  (let st := Progress.run [Progress.OkJson completed100;
                           Progress.OkJson completed100] in
   Progress.trace st =
     [Progress.Fetch 0; Progress.SetInterval 2000;
      Progress.SetStatus completed100; Progress.SetIsPolling false;
      Progress.OnComplete completed100;
      Progress.Fetch 1;
      Progress.SetStatus completed100; Progress.SetIsPolling false;
      Progress.OnComplete completed100;
      Progress.Fetch 2] /\
   count Progress.is_terminal (Progress.trace st) = 2%nat /\
   Progress.interval st = Some 2000%Z /\
   Progress.isPolling st = false /\
   Progress.step st Progress.Second = None) /\
  option_map Progress.trace
    (Progress.exec Progress.mount
       [Progress.Tick;
        Progress.Response 0 (Progress.OkJson completed100);
        Progress.Cleanup;
        Progress.Response 1 (Progress.OkJson completed100)]) =
  Some [Progress.Fetch 0; Progress.SetInterval 2000; Progress.Fetch 1;
        Progress.SetStatus completed100; Progress.SetIsPolling false;
        Progress.OnComplete completed100;
        Progress.ClearInterval;
        Progress.SetStatus completed100; Progress.SetIsPolling false;
        Progress.OnComplete completed100].
Proof. vm_compute. repeat split. Qed.

(** C4, evaluated on [VideoGenerationProgress]: a read answered
    ['running'] and then a read answered ['failed'] with the error
    ['render engine crashed'].  [onError] gets the service's string, but
    the timer stays armed and its next tick issues a further read. *)
Theorem reported_failure_does_not_stop_reads :
  let st := Progress.run [Progress.OkJson (running 30);
                          Progress.OkJson failed_crash] in
  Progress.trace st =
    [Progress.Fetch 0; Progress.SetInterval 2000;
     Progress.SetStatus (running 30);
     Progress.Fetch 1;
     Progress.SetStatus failed_crash; Progress.SetIsPolling false;
     Progress.OnError "render engine crashed";
     Progress.Fetch 2] /\
  Progress.interval st = Some 2000%Z /\
  Progress.inflight st = [2%nat].
Proof. vm_compute. repeat split. Qed.

End Claims.

(** * Further properties of the code around the claims *)
Module Extras.

Import Api.

Section Poll.

Variable maxAttempts : Z.
Variable interval : Q.

Local Abbreviation step := (step maxAttempts interval).
Local Abbreviation reachable := (reachable maxAttempts interval).
Local Abbreviation pollVideoStatus := (pollVideoStatus maxAttempts interval).

Ltac split_tests :=
  repeat match goal with
  | |- context [String.eqb ?a ?b] => destruct (String.eqb a b) eqn:?
  | |- context [Z.leb ?a ?b] => destruct (Z.leb_spec a b)
  end.

(** A run that is still polling, extended by one result: the state the
    result meets. *)
Lemma run_snoc rs r :
  settled (pollVideoStatus rs) = None ->
  exists tr,
    pollVideoStatus (rs ++ [r]) =
    run_from maxAttempts interval (mkPoll (S (length rs)) None 1 0 tr) [r].
Proof.
  intros Hs. destruct (ApiProps.unsettled_shape _ _ _ Hs) as [tr Hshape].
  exists tr. unfold Api.pollVideoStatus in *.
  rewrite ApiProps.run_from_app by apply ApiProps.at_rest_start.
  rewrite Hshape. reflexivity.
Qed.

(** How the promise can be resolved: only by a read whose status is
    ['completed'], with that status, handed to [onProgress] just before. *)
Lemma resolved_inv st :
  reachable st ->
  forall s, settled st = Some (Resolved s) ->
  status s = "completed" /\
  exists pre, trace st = pre ++ [OnProgress s; Resolve s].
Proof.
  induction 1 as [|st ev st' Hr IH Hstep]; intros s Hs; [discriminate|].
  destruct (settled st) as [o|] eqn:Ho.
  - rewrite (ApiProps.settled_final _ _ st o ev Hr Ho) in Hstep. discriminate.
  - clear IH. destruct ev as [r|]; cbn [Api.step] in Hstep.
    + destruct (inflight st); [discriminate|]. injection Hstep as <-.
      revert Hs. unfold poll_resume.
      destruct r as [s0|e];
        cbn [emit attempts settled inflight timers trace];
        split_tests;
        cbn [do_resolve do_reject do_setTimeout settle emit attempts settled
             inflight timers trace];
        rewrite ?Ho; try discriminate.
      intros Heq. injection Heq as <-. split.
      * apply String.eqb_eq. assumption.
      * exists (trace st). rewrite <- app_assoc. reflexivity.
    + destruct (timers st); [discriminate|]. injection Hstep as <-.
      cbn in Hs. congruence.
Qed.

(** The delays handed to [setTimeout]: one per read after the first, plus
    the one of the armed timer; each between the smaller and the larger of
    [interval] and the 30000 ms cap. *)
Lemma delays_inv st :
  reachable st ->
  (length (delays (trace st)) + 1 = attempts st + timers st)%nat /\
  (0 <= interval ->
   Forall (fun d => Qmin interval 30000 <= d /\ d <= Qmax interval 30000)
          (delays (trace st))).
Proof.
  induction 1 as [|st ev st' Hr [IHlen IHall] Hstep].
  - split; [reflexivity | intros _; constructor].
  - destruct ev as [r|]; cbn [Api.step] in Hstep.
    + destruct (inflight st); [discriminate|]. injection Hstep as <-.
      unfold poll_resume.
      destruct r as [s0|e];
        cbn [emit attempts settled inflight timers trace];
        split_tests;
        cbn [do_resolve do_reject do_setTimeout settle emit attempts settled
             inflight timers trace];
        rewrite !ApiProps.delays_app; cbn [delay_of];
        rewrite ?app_nil_r, ?length_app; cbn [length];
        (split; [lia|]); intros Hi; specialize (IHall Hi);
        try exact IHall;
        apply Forall_app; (split; [exact IHall|]);
        (constructor; [|constructor]).
      * split; [apply Q.le_min_l | apply Q.le_max_l].
      * split.
        -- unfold backoffInterval. apply Q.min_le_compat_r.
           rewrite <- (Qmult_1_r interval) at 1.
           rewrite !(Qmult_comm interval).
           apply Qmult_le_compat_r; [|exact Hi].
           apply Qpower_1_le; [discriminate | lia].
        -- eapply Qle_trans; [apply ApiProps.backoff_le_cap|].
           apply Q.le_max_r.
    + destruct (timers st) as [|t] eqn:Ht; [discriminate|].
      injection Hstep as <-.
      cbn [poll_enter emit attempts settled inflight timers trace].
      rewrite ApiProps.delays_app; cbn [delay_of]. rewrite app_nil_r.
      split; [lia | exact IHall].
Qed.

End Poll.

(** X1.  [pollVideoStatus] resolves only on a read whose status is
    ['completed'], with that very status, which [onProgress] got just
    before; and a ['completed'] answer to a run that is still polling always
    resolves it, also on the read that reaches the attempt ceiling. *)
Theorem resolves_exactly_on_completed
  (maxAttempts : Z) (interval : Q) (evs : list Event) (st : PollState)
  (s s' : VideoStatusResponse) (rs : list ReadResult) :
  exec maxAttempts interval start evs = Some st ->
  settled st = Some (Resolved s) ->
  settled (pollVideoStatus maxAttempts interval rs) = None ->
  status s' = "completed" ->
  (status s = "completed" /\
   exists pre, trace st = pre ++ [OnProgress s; Resolve s]) /\
  settled (pollVideoStatus maxAttempts interval (rs ++ [Fulfilled s'])) =
    Some (Resolved s').
Proof.
  intros Hexec Hs Hrun Hc. split.
  - apply (resolved_inv maxAttempts interval st); [|exact Hs].
    eapply ApiProps.exec_reachable; [constructor | exact Hexec].
  - destruct (run_snoc maxAttempts interval rs (Fulfilled s') Hrun)
      as [tr ->].
    cbn [run_from step inflight poll_resume emit attempts settled timers trace].
    rewrite Hc. reflexivity.
Qed.

Lemma resolves_exactly_on_completed_witness :
  exec 2 Samples.default_interval start
    [ReadDone (Fulfilled Samples.completed100)] <> None /\
  settled (pollVideoStatus 2 Samples.default_interval
             [Fulfilled (Samples.running 20)]) = None /\
  status Samples.completed100 = "completed" /\
  settled (pollVideoStatus 2 Samples.default_interval
             ([Fulfilled (Samples.running 20)] ++
              [Fulfilled Samples.completed100])) =
    Some (Resolved Samples.completed100).
Proof.
  destruct (exec 2 Samples.default_interval start
              [ReadDone (Fulfilled Samples.completed100)]) as [st|] eqn:E;
    [|vm_compute in E; discriminate].
  assert (Hs : settled st = Some (Resolved Samples.completed100))
    by (vm_compute in E; injection E as <-; reflexivity).
  assert (H1 : settled (pollVideoStatus 2 Samples.default_interval
             [Fulfilled (Samples.running 20)]) = None)
    by (vm_compute; reflexivity).
  assert (H2 : status Samples.completed100 = "completed") by reflexivity.
  split; [discriminate|]. split; [exact H1|]. split; [exact H2|].
  exact (proj2 (resolves_exactly_on_completed 2 Samples.default_interval _ st
                  Samples.completed100 Samples.completed100 _ E Hs H1 H2)).
Defined.

(** X2.  With [maxAttempts] at most 1 (also zero or negative) the status
    is read exactly once: whatever the first read returns, the promise
    settles on it and no timer is ever armed. *)
Theorem single_read_without_retry_budget
  (maxAttempts : Z) (interval : Q) (r : ReadResult) (rs : list ReadResult) :
  (maxAttempts <= 1)%Z ->
  let st := pollVideoStatus maxAttempts interval (r :: rs) in
  settled st <> None /\
  count is_read (trace st) = 1%nat /\
  delays (trace st) = [].
Proof.
  intros Hm st.
  assert (Hc : ceiling maxAttempts = 1%nat) by (unfold ceiling; lia).
  pose proof (ApiProps.run_from_at_rest maxAttempts interval start (r :: rs)
                (ApiProps.at_rest_start maxAttempts interval)) as [Hr Ht].
  fold (pollVideoStatus maxAttempts interval (r :: rs)) in Hr, Ht.
  fold st in Hr, Ht.
  pose proof (ApiProps.attempts_le_ceiling _ _ _ Hr) as Hle.
  destruct (ApiProps.reachable_Inv _ _ _ Hr) as (H1 & Hreads & _).
  destruct (delays_inv _ _ _ Hr) as [Hlen _].
  split; [|split].
  - apply ApiProps.run_from_settles;
      [apply ApiProps.at_rest_start | rewrite Hc; simpl; lia].
  - rewrite Hreads. lia.
  - destruct (delays (trace st)); [reflexivity | simpl in Hlen; lia].
Qed.

Lemma single_read_without_retry_budget_witness :
  (0 <= 1)%Z /\
  let st := pollVideoStatus 0 Samples.default_interval
              (Thrown Samples.errNet :: [Fulfilled Samples.completed100]) in
  settled st <> None /\
  count is_read (trace st) = 1%nat /\
  delays (trace st) = [].
Proof.
  assert (H : (0 <= 1)%Z) by lia.
  split; [exact H|].
  exact (single_read_without_retry_budget 0 Samples.default_interval
           (Thrown Samples.errNet) [Fulfilled Samples.completed100] H).
Defined.

(** X4.  A status ['failed'] that carries no error text, or an empty one,
    is reported with the message ['Video generation failed'] by both
    loops: [pollVideoStatus] rejects with it, and the component passes it
    to [onError]. *)
Theorem failure_without_text_gets_default_message
  (maxAttempts : Z) (interval : Q) (rs : list ReadResult)
  (s : VideoStatusResponse) (pst : Progress.State) (id : nat) :
  status s = "failed" ->
  error s = None \/ error s = Some "" ->
  settled (pollVideoStatus maxAttempts interval rs) = None ->
  existsb (Nat.eqb id) (Progress.inflight pst) = true ->
  settled (pollVideoStatus maxAttempts interval (rs ++ [Fulfilled s])) =
    Some (Rejected (mkError "Video generation failed")) /\
  exists pst',
    Progress.step pst (Progress.Response id (Progress.OkJson s)) = Some pst' /\
    Progress.trace pst' =
      Progress.trace pst ++
      [Progress.SetStatus s; Progress.SetIsPolling false;
       Progress.OnError "Video generation failed"].
Proof.
  intros Hf He Hrun Hin.
  assert (Hmsg : or_else (error s) "Video generation failed" =
                 "Video generation failed")
    by (destruct He as [-> | ->]; reflexivity).
  split.
  - destruct (run_snoc maxAttempts interval rs (Fulfilled s) Hrun) as [tr ->].
    cbn [run_from step inflight poll_resume emit attempts settled timers trace].
    rewrite Hf, Hmsg. reflexivity.
  - cbn [Progress.step]. rewrite Hin. eexists. split; [reflexivity|].
    unfold Progress.pollStatus_resume. rewrite Hf, Hmsg.
    cbn. rewrite <- !app_assoc. reflexivity.
Qed.

Lemma failure_without_text_gets_default_message_witness :
  status (Samples.mkStatus "failed" 30 None (Some "")) = "failed" /\
  (error (Samples.mkStatus "failed" 30 None (Some "")) = None \/
   error (Samples.mkStatus "failed" 30 None (Some "")) = Some "") /\
  settled (pollVideoStatus Samples.default_maxAttempts
             Samples.default_interval []) = None /\
  existsb (Nat.eqb 0) (Progress.inflight Progress.mount) = true /\
  settled (pollVideoStatus Samples.default_maxAttempts
             Samples.default_interval
             ([] ++ [Fulfilled (Samples.mkStatus "failed" 30 None (Some ""))]))
  = Some (Rejected (mkError "Video generation failed")).
Proof.
  assert (H1 : status (Samples.mkStatus "failed" 30 None (Some "")) = "failed")
    by reflexivity.
  assert (H2 : error (Samples.mkStatus "failed" 30 None (Some "")) = None \/
               error (Samples.mkStatus "failed" 30 None (Some "")) = Some "")
    by (right; reflexivity).
  assert (H3 : settled (pollVideoStatus Samples.default_maxAttempts
                          Samples.default_interval []) = None)
    by (vm_compute; reflexivity).
  assert (H4 : existsb (Nat.eqb 0) (Progress.inflight Progress.mount) = true)
    by (vm_compute; reflexivity).
  split; [exact H1|]. split; [exact H2|]. split; [exact H3|].
  split; [exact H4|].
  exact (proj1 (failure_without_text_gets_default_message
                  Samples.default_maxAttempts Samples.default_interval []
                  _ Progress.mount 0 H1 H2 H3 H4)).
Defined.

(** ** [request] and what is built on it *)

Lemma length_append (a b : string) :
  String.length (a ++ b) = (String.length a + String.length b)%nat.
Proof. induction a as [|c a IH]; simpl; [reflexivity | rewrite IH; reflexivity]. Qed.

Lemma append_inj_l (p a b : string) : (p ++ a = p ++ b)%string -> a = b.
Proof.
  induction p as [|c p IH]; simpl; intros H; [exact H|].
  injection H as H. exact (IH H).
Qed.

(** Two concatenations whose right parts have the same length agree part
    by part. *)
Lemma append_inj_same_length (a b x y : string) :
  String.length x = String.length y ->
  (a ++ x = b ++ y)%string -> a = b /\ x = y.
Proof.
  intros Hlen. revert b.
  induction a as [|c a IH]; intros [|c' b] H; simpl in H.
  - split; [reflexivity | exact H].
  - exfalso. apply (f_equal String.length) in H. simpl in H.
    rewrite length_append in H. lia.
  - exfalso. apply (f_equal String.length) in H. simpl in H.
    rewrite length_append in H. lia.
  - injection H as Hc H. destruct (IH b H) as [-> ->]. subst. split; reflexivity.
Qed.

(** X5.  A status read over HTTP succeeds only for a response that is ok
    and whose body decodes; a response that is not ok, a body that does not
    decode and a rejected [fetch] all make [getVideoStatus] throw, each
    thrown error being written to the console once, and a read that
    succeeds writes nothing. *)
Theorem status_read_fails_loudly
  (questionId : string) (o : Http.FetchOutcome VideoStatusResponse) :
  (forall s, fst (Http.getVideoStatus questionId o) = Fulfilled s <->
             exists code text, o = Http.HttpResponse true code text
                                     (Http.Decodes s)) /\
  match Http.getVideoStatus questionId o with
  | (Fulfilled _, log) => log = []
  | (Thrown e, log) =>
      log = [Http.Logged
               ("API request failed for /video-status/" ++ questionId ++ ":") e]
      /\ e = match o with
             | Http.HttpResponse true _ _ (Http.DecodeThrows e') => e'
             | _ => Http.api_error o
             end
  end.
Proof.
  unfold Http.getVideoStatus, Http.request, Http.request_try.
  destruct o as [e|[|] code text [v|e]]; cbn [negb fst]; split;
    try (intros s; split; [discriminate | intros (c & t & H); discriminate]);
    try (split; reflexivity); try reflexivity.
  intros s. split.
  - intros [= ->]. eauto.
  - intros (c & t & [= -> -> ->]). reflexivity.
Qed.

(** X6.  [request] sends the default header [Content-Type:
    application/json] only when the caller passes no [headers]: options
    that carry [headers] reach [fetch] with exactly those, because
    [...options] is spread after the merged object.  Method and body are the
    caller's.  The calls the service itself makes ([generateVideo] with its
    POST body, and the default [{}]) pass no headers, so they send the
    default. *)
Theorem caller_headers_replace_default
  (options : Http.RequestInit) (h : Http.JsObject) (json : string) :
  Http.headers options = Some h ->
  Http.headers (Http.fetch_init options) = Some h /\
  Http.obj_get "Content-Type" h =
    match Http.headers (Http.fetch_init options) with
    | Some sent => Http.obj_get "Content-Type" sent
    | None => None
    end /\
  Http.method (Http.fetch_init options) = Http.method options /\
  Http.body (Http.fetch_init options) = Http.body options /\
  Http.fetch_init (Http.generateVideo_options json) =
    Http.mkInit (Some "POST") (Some json)
      (Some [("Content-Type", "application/json")]) /\
  Http.fetch_init Http.no_options =
    Http.mkInit None None (Some [("Content-Type", "application/json")]).
Proof.
  intros Hh. unfold Http.fetch_init, Http.init_spread. cbn.
  rewrite Hh. cbn.
  destruct (Http.method options), (Http.body options); repeat split.
Qed.

Lemma caller_headers_replace_default_witness :
  Http.headers (Http.mkInit (Some "GET") None
                  (Some [("Accept", "application/json")])) =
    Some [("Accept", "application/json")] /\
  Http.headers (Http.fetch_init (Http.mkInit (Some "GET") None
                  (Some [("Accept", "application/json")]))) =
    Some [("Accept", "application/json")].
Proof.
  assert (H : Http.headers (Http.mkInit (Some "GET") None
                  (Some [("Accept", "application/json")])) =
              Some [("Accept", "application/json")]) by reflexivity.
  split; [exact H|].
  exact (proj1 (caller_headers_replace_default _ _ "{}" H)).
Defined.

Lemma http_errors_are_thrown (questionId : string)
  (os : list (Http.FetchOutcome VideoStatusResponse)) :
  forallb Http.is_http_error os = true ->
  map (fun o => fst (Http.getVideoStatus questionId o)) os =
  map Thrown (map Http.api_error os).
Proof.
  induction os as [|o os IH]; [reflexivity|].
  cbn [forallb map]. intros H. apply andb_prop in H. destruct H as [Ho Hos].
  rewrite (IH Hos). f_equal.
  destruct o as [e|[|] code text b]; try discriminate. reflexivity.
Qed.

(** X7.  When every status read is answered by a response that is not ok,
    up to the attempt ceiling, [pollVideoStatus] rejects with the error
    [request] made of the last response, whose message is
    ['API Error: <status> <statusText>']; exactly [ceiling] reads have been
    issued. *)
Theorem http_errors_surface_as_api_error
  (maxAttempts : Z) (interval : Q) (questionId : string)
  (o : Http.FetchOutcome VideoStatusResponse)
  (os extra : list (Http.FetchOutcome VideoStatusResponse))
  (d : Http.FetchOutcome VideoStatusResponse) :
  forallb Http.is_http_error (o :: os) = true ->
  S (length os) = ceiling maxAttempts ->
  let st := Http.pollVideoStatus_over maxAttempts interval questionId
              ((o :: os) ++ extra) in
  settled st = Some (Rejected (Http.api_error (last (o :: os) d))) /\
  count is_read (trace st) = ceiling maxAttempts /\
  exists code text b,
    last (o :: os) d = Http.HttpResponse false code text b /\
    message (Http.api_error (last (o :: os) d)) =
      ("API Error: " ++ Http.toString code ++ " " ++ text)%string.
Proof.
  intros Hall Hlen st.
  assert (Hst : st = run_from maxAttempts interval
                       (mkPoll 1 None 1 0 [GetVideoStatus])
                       (map Thrown (Http.api_error o :: map Http.api_error os)
                        ++ map (fun o => fst (Http.getVideoStatus questionId o))
                             extra)).
  { subst st. unfold Http.pollVideoStatus_over, pollVideoStatus.
    rewrite map_app, (http_errors_are_thrown questionId (o :: os) Hall).
    reflexivity. }
  destruct (ApiProps.all_thrown_run maxAttempts interval
              (map Http.api_error os) (Http.api_error d)
              (map (fun o => fst (Http.getVideoStatus questionId o)) extra)
              (Http.api_error o) 1 [GetVideoStatus] ltac:(lia)
              ltac:(rewrite length_map; lia)) as (Hset & Ha & _).
  rewrite <- Hst in Hset, Ha.
  assert (Hlast : last (Http.api_error o :: map Http.api_error os)
                       (Http.api_error d) =
                  Http.api_error (last (o :: os) d)).
  { change (Http.api_error o :: map Http.api_error os)
      with (map Http.api_error (o :: os)).
    generalize (o :: os). intros l.
    induction l as [|x [|y l] IH]; [reflexivity | reflexivity |].
    exact IH. }
  rewrite Hlast in Hset.
  split; [exact Hset|]. split.
  - subst st. unfold Http.pollVideoStatus_over.
    rewrite <- ApiProps.run_reads. exact Ha.
  - assert (Hin : Http.is_http_error (last (o :: os) d) = true).
    { assert (Hne : o :: os <> []) by discriminate.
      pose proof (proj1 (forallb_forall _ _) Hall) as Hf.
      apply Hf. destruct (exists_last Hne) as (l' & a & ->).
      rewrite last_last. apply in_or_app. right. left. reflexivity. }
    destruct (last (o :: os) d) as [e|[|] code text b]; try discriminate.
    exists code, text, b. split; reflexivity.
Qed.

Lemma http_errors_surface_as_api_error_witness :
  forallb Http.is_http_error
    [HttpSamples.bad_gateway; HttpSamples.unavailable] = true /\
  2%nat = ceiling 2 /\
  Http.api_error HttpSamples.unavailable =
    mkError "API Error: 503 Service Unavailable" /\
  let st := Http.pollVideoStatus_over 2 Samples.default_interval "Q1"
              ([HttpSamples.bad_gateway; HttpSamples.unavailable] ++ []) in
  settled st =
    Some (Rejected (Http.api_error
      (last [HttpSamples.bad_gateway; HttpSamples.unavailable]
            HttpSamples.offline))).
Proof.
  assert (H1 : forallb Http.is_http_error
    [HttpSamples.bad_gateway; HttpSamples.unavailable] = true) by reflexivity.
  assert (H2 : 2%nat = ceiling 2) by (vm_compute; reflexivity).
  split; [exact H1|]. split; [exact H2|].
  split; [vm_compute; reflexivity|].
  exact (proj1 (http_errors_surface_as_api_error 2 Samples.default_interval
                  "Q1" _ _ [] HttpSamples.offline H1 H2)).
Defined.

(** X8.  The component fetches the status from the very URL
    [getVideoStatus] requests, and its Download button opens the URL
    [createDownloadLink] builds; and the URLs of two questions (status,
    download or video stream) coincide only if the questions do. *)
Theorem urls_identify_the_question (q q' : string) :
  View.status_url q = View.status_url q' \/
  Http.createDownloadLink q = Http.createDownloadLink q' \/
  Http.getVideoStreamUrl q = Http.getVideoStreamUrl q' ->
  q = q' /\
  View.status_url q = Http.request_url ("/video-status/" ++ q) /\
  View.download_url q = Http.createDownloadLink q.
Proof.
  intros H. split; [|split; reflexivity].
  destruct H as [H|[H|H]].
  - exact (append_inj_l _ _ _ H).
  - unfold Http.createDownloadLink in H.
    exact (append_inj_l _ _ _ (append_inj_l _ _ _ H)).
  - unfold Http.getVideoStreamUrl in H.
    apply append_inj_l, append_inj_l in H.
    exact (proj1 (append_inj_same_length _ _ _ _ eq_refl H)).
Qed.

Lemma urls_identify_the_question_witness :
  (View.status_url "Q1" = View.status_url "Q1" \/
   Http.createDownloadLink "Q1" = Http.createDownloadLink "Q1" \/
   Http.getVideoStreamUrl "Q1" = Http.getVideoStreamUrl "Q1") /\
  View.status_url "Q1" = Http.request_url ("/video-status/" ++ "Q1").
Proof.
  assert (H : View.status_url "Q1" = View.status_url "Q1" \/
   Http.createDownloadLink "Q1" = Http.createDownloadLink "Q1" \/
   Http.getVideoStreamUrl "Q1" = Http.getVideoStreamUrl "Q1")
    by (left; reflexivity).
  split; [exact H|].
  exact (proj1 (proj2 (urls_identify_the_question "Q1" "Q1" H))).
Defined.

(** ** What the component shows *)

Lemma toString_inj (a b : nat) : Http.toString a = Http.toString b -> a = b.
Proof.
  unfold Http.toString. intros H.
  assert (Hn : forall n, Nat.to_uint n <> Decimal.Nil).
  { intros n. rewrite <- (DecimalNat.Unsigned.of_to n) at 1.
    rewrite DecimalNat.Unsigned.to_of. apply DecimalFacts.unorm_nonnil. }
  apply (f_equal DecimalString.NilZero.uint_of_string) in H.
  rewrite !DecimalString.NilZero.usu in H by apply Hn.
  injection H as H. exact (DecimalNat.Unsigned.to_uint_inj _ _ H).
Qed.

(** The seconds field: two characters, and different for different
    seconds below sixty. *)
Lemma seconds_field (m m' : nat) :
  (m < 60)%nat -> (m' < 60)%nat ->
  String.length (View.padStart 2 "0"%char (Http.toString m)) = 2%nat /\
  (View.padStart 2 "0"%char (Http.toString m) =
   View.padStart 2 "0"%char (Http.toString m') -> m = m').
Proof.
  intros Hm Hm'.
  assert (Hall : forallb (fun a =>
            (String.length (View.padStart 2 "0"%char (Http.toString a)) =? 2)%nat
            && forallb (fun b =>
                 implb (View.padStart 2 "0"%char (Http.toString a) =?
                        View.padStart 2 "0"%char (Http.toString b))%string
                       (a =? b)%nat) (seq 0 60)) (seq 0 60) = true)
    by (vm_compute; reflexivity).
  pose proof (proj1 (forallb_forall _ _) Hall m
                (proj2 (in_seq 60 0 m) ltac:(lia))) as H.
  apply andb_prop in H. destruct H as [Hlen Hinj].
  split; [apply Nat.eqb_eq, Hlen|].
  intros Heq.
  pose proof (proj1 (forallb_forall _ _) Hinj m'
                (proj2 (in_seq 60 0 m') ltac:(lia))) as H.
  rewrite Heq, String.eqb_refl in H. apply Nat.eqb_eq. exact H.
Qed.

(** X9.  [formatTime] renders a whole number of seconds as the minutes, a
    colon and a two-character seconds field, so different durations are
    shown differently; the estimate [formatTime(Math.max(0, 120 -
    elapsedTime))] counts down from two minutes and stays at ['0:00'] from
    there on. *)
Theorem formatTime_is_injective (a b k : nat) :
  View.formatTime a = View.formatTime b ->
  a = b /\
  String.length (View.formatTime a) =
    (String.length (Http.toString (a / 60)) + 3)%nat /\
  View.estimatedCompletion a = View.formatTime (120 - a) /\
  View.estimatedCompletion (120 + k) = "0:00".
Proof.
  intros H.
  assert (Hlen : forall n,
    String.length (":" ++ View.padStart 2 "0"%char
                            (Http.toString (n mod 60)))%string = 3%nat).
  { intros n. cbn [append String.length].
    rewrite (proj1 (seconds_field (n mod 60) 0
               (Nat.mod_upper_bound n 60 ltac:(lia)) ltac:(lia))).
    reflexivity. }
  split; [|split; [|split]].
  - unfold View.formatTime in H. cbn zeta in H.
    destruct (append_inj_same_length _ _ _ _
                (eq_trans (Hlen a) (eq_sym (Hlen b))) H) as [Hm Hs].
    apply toString_inj in Hm.
    apply (append_inj_l ":") in Hs.
    apply (proj2 (seconds_field (a mod 60) (b mod 60)
             (Nat.mod_upper_bound a 60 ltac:(lia))
             (Nat.mod_upper_bound b 60 ltac:(lia)))) in Hs.
    rewrite (Nat.div_mod_eq a 60), (Nat.div_mod_eq b 60), Hm, Hs.
    reflexivity.
  - unfold View.formatTime. cbn zeta. rewrite length_append, Hlen.
    reflexivity.
  - unfold View.estimatedCompletion. f_equal. lia.
  - unfold View.estimatedCompletion.
    replace (Z.to_nat (Z.max 0 (120 - Z.of_nat (120 + k)))) with 0%nat by lia.
    reflexivity.
Qed.

Lemma formatTime_is_injective_witness :
  View.formatTime 75 = View.formatTime 75 /\
  View.formatTime 75 = "1:15" /\
  View.estimatedCompletion 75 = View.formatTime (120 - 75).
Proof.
  assert (H : View.formatTime 75 = View.formatTime 75) by reflexivity.
  split; [exact H|]. split; [vm_compute; reflexivity|].
  exact (proj1 (proj2 (proj2 (formatTime_is_injective 75 75 0 H)))).
Defined.

(** X10.  The status line and the colour of the progress bar agree on the
    terminal states: the text is ['Video generation completed!'] exactly
    when the bar is green, and ['Video generation failed'] exactly when
    it is red, whatever status string the service sends. *)
Theorem status_text_and_bar_colour_agree
  (status : option VideoStatusResponse) :
  (View.getStatusText status = "Video generation completed!" <->
   View.getProgressColor status = "from-green-500 to-emerald-500") /\
  (View.getStatusText status = "Video generation failed" <->
   View.getProgressColor status = "from-red-500 to-pink-500").
Proof.
  destruct status as [s|]; unfold View.getStatusText, View.getProgressColor;
    [|split; split; discriminate].
  generalize (Api.status s). intros x.
  destruct (String.eqb_spec x "queued") as [->|_];
    [cbn; split; split; discriminate|].
  destruct (String.eqb_spec x "running") as [->|_];
    [cbn; split; split; discriminate|].
  destruct (String.eqb_spec x "completed") as [->|_];
    [cbn; split; split; solve [discriminate | intros _; reflexivity]|].
  destruct (String.eqb_spec x "failed") as [->|_];
    split; split; solve [discriminate | intros _; reflexivity].
Qed.

(** ** Executions of the component *)

Lemma last_opt_cons {A} (a : A) (l : list A) :
  Runs.last_opt (a :: l) =
  match Runs.last_opt l with Some x => Some x | None => Some a end.
Proof.
  unfold Runs.last_opt. cbn [rev].
  destruct (rev l) as [|x r]; reflexivity.
Qed.

Lemma count_cons {A} (p : A -> bool) (a : A) (l : list A) :
  count p (a :: l) = ((if p a then 1 else 0) + count p l)%nat.
Proof. unfold count. cbn [filter]. destruct (p a); reflexivity. Qed.

Lemma progress_exec_app evs1 : forall evs2 st st',
  Progress.exec st (evs1 ++ evs2) = Some st' ->
  exists mid, Progress.exec st evs1 = Some mid /\
              Progress.exec mid evs2 = Some st'.
Proof.
  induction evs1 as [|ev evs1 IH]; intros evs2 st st' H.
  - exists st. split; [reflexivity | exact H].
  - cbn [app Progress.exec] in *.
    destruct (Progress.step st ev) as [st1|]; [|discriminate].
    exact (IH _ _ _ H).
Qed.

Ltac progress_fields :=
  cbn [Progress.setStatus Progress.setIsPolling Progress.emit
       Progress.status Progress.isPolling Progress.elapsedTime
       Progress.interval Progress.inflight Progress.issued Progress.trace];
  unfold Runs.last_opt, Spec.terminal_status;
  rewrite ?ApiProps.count_app, ?count_cons;
  unfold Runs.is_completed, Runs.is_failed;
  cbn [rev app existsb count filter length
       Runs.is_complete_call Runs.is_error_call Progress.is_fetch].

(** What one turn does to the callbacks, the React state, the clock and
    the reads. *)
Lemma progress_step st ev st' :
  Progress.step st ev = Some st' ->
  (count Runs.is_complete_call (Progress.trace st') =
     count Runs.is_complete_call (Progress.trace st) +
     count Runs.is_completed (Progress.bodies [ev]))%nat /\
  (count Runs.is_error_call (Progress.trace st') =
     count Runs.is_error_call (Progress.trace st) +
     count Runs.is_failed (Progress.bodies [ev]))%nat /\
  Progress.status st' =
    match Runs.last_opt (Progress.bodies [ev]) with
    | Some s => Some s
    | None => Progress.status st
    end /\
  Progress.isPolling st' =
    Progress.isPolling st &&
    negb (existsb Spec.terminal_status (Progress.bodies [ev])) /\
  Progress.elapsedTime st' =
    (Progress.elapsedTime st + if Runs.is_second ev then 1 else 0)%nat /\
  (Runs.is_second ev = true -> Progress.isPolling st = true) /\
  (count Progress.is_fetch (Progress.trace st') =
     count Progress.is_fetch (Progress.trace st) +
     if Progress.issues_read ev then 1 else 0)%nat /\
  (Progress.interval st = None ->
   Progress.issues_read ev = false /\ Progress.interval st' = None).
Proof.
  destruct ev as [|id r| | |];
    cbn [Progress.step Progress.bodies Runs.is_second Progress.issues_read].
  - destruct (Progress.interval st) eqn:Hi; [|discriminate]. intros [= <-].
    unfold Progress.pollStatus_enter.
    cbn [Progress.emit Progress.status Progress.isPolling Progress.elapsedTime
         Progress.interval Progress.inflight Progress.issued Progress.trace].
    rewrite !ApiProps.count_app. cbn.
    rewrite andb_true_r. repeat split; try lia; try discriminate.
  - destruct (existsb _ _); [|discriminate]. intros [= <-].
    destruct r as [s| |e]; unfold Progress.pollStatus_resume.
    + destruct (Api.status s =? "completed")%string eqn:Hc;
        destruct (Api.status s =? "failed")%string eqn:Hf;
        progress_fields; rewrite ?Hc, ?Hf; cbn [negb andb orb];
        rewrite ?andb_true_r, ?andb_false_r;
        repeat split; try lia; try discriminate; auto.
    + progress_fields. rewrite ?andb_true_r.
      repeat split; try lia; try discriminate; auto.
    + progress_fields. rewrite ?andb_true_r.
      repeat split; try lia; try discriminate; auto.
  - destruct (Progress.isPolling st) eqn:Hp; [|discriminate]. intros [= <-].
    cbn. repeat split; try lia; auto.
  - destruct (Progress.interval st) eqn:Hi; [|discriminate]. intros [= <-].
    cbn [Progress.emit Progress.status Progress.isPolling Progress.elapsedTime
         Progress.interval Progress.inflight Progress.issued Progress.trace].
    rewrite !ApiProps.count_app. cbn.
    rewrite andb_true_r. repeat split; try lia; discriminate.
  - destruct (Progress.interval st) eqn:Hi; [|discriminate]. intros [= <-].
    unfold Progress.pollStatus_enter.
    cbn [Progress.emit Progress.status Progress.isPolling Progress.elapsedTime
         Progress.interval Progress.inflight Progress.issued Progress.trace].
    rewrite !ApiProps.count_app. cbn.
    rewrite andb_true_r. repeat split; try lia; discriminate.
Qed.

Lemma progress_exec evs : forall st st',
  Progress.exec st evs = Some st' ->
  (count Runs.is_complete_call (Progress.trace st') =
     count Runs.is_complete_call (Progress.trace st) +
     count Runs.is_completed (Progress.bodies evs))%nat /\
  (count Runs.is_error_call (Progress.trace st') =
     count Runs.is_error_call (Progress.trace st) +
     count Runs.is_failed (Progress.bodies evs))%nat /\
  Progress.status st' =
    match Runs.last_opt (Progress.bodies evs) with
    | Some s => Some s
    | None => Progress.status st
    end /\
  Progress.isPolling st' =
    Progress.isPolling st &&
    negb (existsb Spec.terminal_status (Progress.bodies evs)) /\
  Progress.elapsedTime st' =
    (Progress.elapsedTime st + count Runs.is_second evs)%nat /\
  (Progress.isPolling st = false -> existsb Runs.is_second evs = false) /\
  (count Progress.is_fetch (Progress.trace st') =
     count Progress.is_fetch (Progress.trace st) +
     count Progress.issues_read evs)%nat /\
  (Progress.interval st = None ->
   existsb Progress.issues_read evs = false /\ Progress.interval st' = None).
Proof.
  induction evs as [|ev evs IH]; intros st st'; cbn [Progress.exec].
  - intros [= <-]. cbn. rewrite andb_true_r.
    repeat split; try lia; auto.
  - destruct (Progress.step st ev) as [st1|] eqn:Hstep; [|discriminate].
    intros Hexec.
    destruct (progress_step _ _ _ Hstep)
      as (S1 & S2 & S3 & S4 & S5 & S6 & S7 & S8).
    destruct (IH _ _ Hexec) as (E1 & E2 & E3 & E4 & E5 & E6 & E7 & E8).
    change (ev :: evs) with ([ev] ++ evs).
    rewrite ProgressProps.bodies_app.
    assert (Hb : Progress.bodies [ev] = [] \/
                 exists s, Progress.bodies [ev] = [s]).
    { destruct ev as [|id [s| |e]| | |]; cbn; eauto. }
    split; [|split; [|split; [|split; [|split; [|split; [|split]]]]]].
    + rewrite E1, S1. destruct Hb as [->|[s ->]]; cbn [app];
        rewrite ?count_cons; cbn; lia.
    + rewrite E2, S2. destruct Hb as [->|[s ->]]; cbn [app];
        rewrite ?count_cons; cbn; lia.
    + rewrite E3, S3. destruct Hb as [->|[s ->]]; cbn [app].
      * reflexivity.
      * rewrite (last_opt_cons s (Progress.bodies evs)).
        destruct (Runs.last_opt (Progress.bodies evs)); reflexivity.
    + rewrite E4, S4. destruct Hb as [->|[s ->]]; cbn [app existsb].
      * rewrite andb_true_r. reflexivity.
      * rewrite orb_false_r, negb_orb, andb_assoc. reflexivity.
    + rewrite E5, S5. cbn [app]. rewrite count_cons. lia.
    + intros Hp. cbn [app existsb]. apply orb_false_intro.
      * destruct (Runs.is_second ev) eqn:Hsec; [|reflexivity].
        rewrite (S6 eq_refl) in Hp. discriminate.
      * apply E6. rewrite S4, Hp. reflexivity.
    + rewrite E7, S7. cbn [app]. rewrite count_cons. lia.
    + intros Hi. destruct (S8 Hi) as [Ht Hi1].
      destruct (E8 Hi1) as [Hts Hi'].
      split; [|exact Hi']. cbn [app existsb]. rewrite Ht, Hts. reflexivity.
Qed.

(** X11.  In any execution of the component, [onComplete] has been called
    once for every ['completed'] answer received and [onError] once for
    every ['failed'] one: the callbacks are neither dropped nor limited to
    the first terminal answer. *)
Theorem one_callback_per_terminal_answer
  (evs : list Progress.Event) (st : Progress.State) :
  Progress.exec Progress.mount evs = Some st ->
  count Runs.is_complete_call (Progress.trace st) =
    count Runs.is_completed (Progress.bodies evs) /\
  count Runs.is_error_call (Progress.trace st) =
    count Runs.is_failed (Progress.bodies evs).
Proof.
  intros H. destruct (progress_exec _ _ _ H) as (H1 & H2 & _).
  split; [exact H1 | exact H2].
Qed.

Lemma one_callback_per_terminal_answer_witness :
  Progress.exec Progress.mount
    [Progress.Tick;
     Progress.Response 1 (Progress.OkJson Samples.failed_crash);
     Progress.Response 0 (Progress.OkJson Samples.completed100)] <> None /\
  forall st,
    Progress.exec Progress.mount
      [Progress.Tick;
       Progress.Response 1 (Progress.OkJson Samples.failed_crash);
       Progress.Response 0 (Progress.OkJson Samples.completed100)] = Some st ->
    count Runs.is_error_call (Progress.trace st) =
    count Runs.is_failed
      (Progress.bodies
         [Progress.Tick;
          Progress.Response 1 (Progress.OkJson Samples.failed_crash);
          Progress.Response 0 (Progress.OkJson Samples.completed100)]).
Proof.
  split; [intros E; vm_compute in E; discriminate|].
  intros st E. exact (proj2 (one_callback_per_terminal_answer _ _ E)).
Defined.

(** X12.  The status the component displays is that of the answer that
    arrived last, whichever read it answers: with reads in flight together
    a late answer to an older read replaces a newer status.  [isPolling] is
    true exactly as long as no ['completed'] or ['failed'] answer has
    arrived, and never becomes true again. *)
Theorem displayed_status_is_last_answer
  (evs : list Progress.Event) (st : Progress.State) :
  Progress.exec Progress.mount evs = Some st ->
  Progress.status st = Runs.last_opt (Progress.bodies evs) /\
  Progress.isPolling st =
    negb (existsb Spec.terminal_status (Progress.bodies evs)).
Proof.
  intros H. destruct (progress_exec _ _ _ H) as (_ & _ & H3 & H4 & _).
  split.
  - rewrite H3. destruct (Runs.last_opt (Progress.bodies evs)); reflexivity.
  - exact H4.
Qed.

Lemma displayed_status_is_last_answer_witness :
  Progress.exec Progress.mount
    [Progress.Tick;
     Progress.Response 1 (Progress.OkJson Samples.completed100);
     Progress.Response 0 (Progress.OkJson (Samples.running 55))] <> None /\
  Runs.last_opt (Progress.bodies
    [Progress.Tick;
     Progress.Response 1 (Progress.OkJson Samples.completed100);
     Progress.Response 0 (Progress.OkJson (Samples.running 55))]) =
    Some (Samples.running 55) /\
  forall st,
    Progress.exec Progress.mount
      [Progress.Tick;
       Progress.Response 1 (Progress.OkJson Samples.completed100);
       Progress.Response 0 (Progress.OkJson (Samples.running 55))] = Some st ->
    Progress.status st =
    Runs.last_opt (Progress.bodies
      [Progress.Tick;
       Progress.Response 1 (Progress.OkJson Samples.completed100);
       Progress.Response 0 (Progress.OkJson (Samples.running 55))]).
Proof.
  split; [intros E; vm_compute in E; discriminate|].
  split; [reflexivity|].
  intros st E. exact (proj1 (displayed_status_is_last_answer _ _ E)).
Defined.

(** X14.  When the component unmounts, the cleanup of the polling effect
    clears the timer and the reads end: afterwards no tick and no run of
    the effect can happen, so the reads issued are one for the mount and one
    for every tick and every re-run of the effect before the unmount;
    answers to reads still in flight are handled all the same. *)
Theorem no_reads_after_unmount
  (evs1 evs2 : list Progress.Event) (st : Progress.State) :
  Progress.exec Progress.mount (evs1 ++ Progress.Cleanup :: evs2) = Some st ->
  existsb Progress.issues_read evs2 = false /\
  count Progress.is_fetch (Progress.trace st) =
    S (count Progress.issues_read evs1) /\
  Progress.interval st = None /\
  Progress.statuses_set (Progress.trace st) =
    Progress.bodies evs1 ++ Progress.bodies evs2.
Proof.
  intros H.
  destruct (progress_exec_app _ _ _ _ H) as (mid & H1 & H2).
  cbn [Progress.exec] in H2.
  destruct (Progress.step mid Progress.Cleanup) as [mid'|] eqn:Hc;
    [|discriminate].
  destruct (progress_exec _ _ _ H1) as (_ & _ & _ & _ & _ & _ & P7 & _).
  destruct (progress_step _ _ _ Hc) as (_ & _ & _ & _ & _ & _ & C7 & _).
  destruct (progress_exec _ _ _ H2) as (_ & _ & _ & _ & _ & _ & Q7 & Q8).
  assert (Hi : Progress.interval mid' = None).
  { cbn [Progress.step] in Hc. destruct (Progress.interval mid); [|discriminate].
    injection Hc as <-. reflexivity. }
  destruct (Q8 Hi) as [Hno Hnone].
  assert (Hz : count Progress.issues_read evs2 = 0%nat).
  { clear -Hno. induction evs2 as [|ev evs IH]; [reflexivity|].
    cbn [existsb] in Hno. apply orb_false_elim in Hno. destruct Hno as [Ha Hb].
    rewrite count_cons, Ha, (IH Hb). reflexivity. }
  split; [exact Hno|]. split; [|split; [exact Hnone|]].
  - rewrite Q7, C7, P7, Hz. cbn. lia.
  - destruct (ProgressProps.exec_frame _ _ _ H) as (_ & _ & Hs).
    rewrite Hs, ProgressProps.bodies_app. reflexivity.
Qed.

Lemma no_reads_after_unmount_witness :
  Progress.exec Progress.mount
    ([Progress.Tick; Progress.Rerun] ++ Progress.Cleanup ::
     [Progress.Response 1 (Progress.OkJson Samples.completed100)]) <> None /\
  forall st,
    Progress.exec Progress.mount
      ([Progress.Tick; Progress.Rerun] ++ Progress.Cleanup ::
       [Progress.Response 1 (Progress.OkJson Samples.completed100)]) = Some st ->
    count Progress.is_fetch (Progress.trace st) =
      S (count Progress.issues_read [Progress.Tick; Progress.Rerun]).
Proof.
  split; [intros E; vm_compute in E; discriminate|].
  intros st E. exact (proj1 (proj2 (no_reads_after_unmount _ _ _ E))).
Defined.

(** ** The page that mounts the component *)

Ltac page_fields :=
  cbn [Page.emit Page.setGenerating Page.questions Page.loading
       Page.generatingQuestion Page.showProgress Page.showVideo
       Page.videoData Page.pendingLoads Page.pendingGenerates
       Page.pendingPreviews Page.trace];
  rewrite ?ApiProps.count_app; cbn [Page.is_preview_call].

Lemma page_step st ev st' :
  Page.page_inv st -> Page.step st ev = Some st' ->
  Page.page_inv st' /\ Page.is_click_view ev = false.
Proof.
  intros (H1 & H2 & H3 & H4 & H5).
  destruct ev as [r|q|r|s|msg|q|qid r]; cbn [Page.step Page.is_click_view].
  - destruct (Page.pendingLoads st); [discriminate|]. intros [= <-].
    split; [|reflexivity].
    unfold Page.page_inv, Page.loadQuestions_resume.
    destruct r as [qs|e]; page_fields; repeat split; auto; lia.
  - destruct (_ && _ && _); [|discriminate]. intros [= <-].
    split; [|reflexivity].
    unfold Page.page_inv, Page.handleGenerateVideo_enter. page_fields.
    repeat split; auto; lia.
  - destruct (Page.pendingGenerates st); [discriminate|]. intros [= <-].
    split; [|reflexivity].
    unfold Page.page_inv, Page.handleGenerateVideo_resume.
    destruct r as [resp|e];
      [destruct (Page.gen_status resp =? "started")%string;
       [|destruct (Page.gen_status resp =? "already_exists")%string]|];
      page_fields; repeat split; auto; lia.
  - intros [= <-]. split; [|reflexivity].
    unfold Page.page_inv, Page.handleVideoComplete, Page.loadQuestions_enter.
    page_fields. repeat split; auto; lia.
  - intros [= <-]. split; [|reflexivity].
    unfold Page.page_inv, Page.handleVideoError. page_fields.
    repeat split; auto; lia.
  - unfold Page.hasVideo. rewrite H2, andb_false_r. discriminate.
  - rewrite H4. cbn. discriminate.
Qed.

Lemma page_exec evs : forall st st',
  Page.page_inv st -> Page.exec st evs = Some st' ->
  Page.page_inv st' /\ existsb Page.is_click_view evs = false.
Proof.
  induction evs as [|ev evs IH]; intros st st' Hinv; cbn [Page.exec].
  - intros [= <-]. split; [exact Hinv | reflexivity].
  - destruct (Page.step st ev) as [st1|] eqn:Hstep; [|discriminate].
    intros Hexec.
    destruct (page_step _ _ _ Hinv Hstep) as [Hinv1 Hev].
    destruct (IH _ _ Hinv1 Hexec) as [Hinv' Hevs].
    split; [exact Hinv'|]. cbn [existsb]. rewrite Hev, Hevs. reflexivity.
Qed.

Lemma page_inv_mount : Page.page_inv Page.mount.
Proof. repeat split. Qed.

(** X15.  On [QuestionsPage], [showProgress] is true exactly when
    [generatingQuestion] is set, after any sequence of clicks, answers and
    callbacks: every handler changes the two together, so the progress
    panel is shown exactly while a question is marked as generating. *)
Theorem progress_shown_iff_generating
  (evs : list Page.Event) (st : Page.State) :
  Page.exec Page.mount evs = Some st ->
  Page.showProgress st =
    match Page.generatingQuestion st with Some _ => true | None => false end.
Proof.
  intros H.
  exact (proj1 (proj1 (page_exec _ _ _ page_inv_mount H))).
Qed.

(** X16.  On [QuestionsPage] no video is ever shown: [videoData] is set
    only by [handleViewVideo], which only the "View Video" button calls,
    and that button is rendered only when [hasVideo], that is when
    [videoData] is already set.  So in every state the page can reach
    [videoData] and [showVideo] are null, [hasVideo] is false for every
    question, [getVideoPreview] has never been called, and the video panel
    is not rendered, also after a generation has completed. *)
Theorem view_video_is_unreachable
  (evs : list Page.Event) (st : Page.State) (questionId : string) :
  Page.exec Page.mount evs = Some st ->
  Page.videoData st = None /\ Page.showVideo st = None /\
  Page.hasVideo st questionId = false /\
  Page.video_rendered st = false /\
  existsb Page.is_click_view evs = false /\
  count Page.is_preview_call (Page.trace st) = 0%nat.
Proof.
  intros H.
  destruct (page_exec _ _ _ page_inv_mount H)
    as [(_ & H2 & H3 & _ & H5) Hc].
  unfold Page.hasVideo, Page.video_rendered. rewrite H2, H3.
  repeat split; assumption.
Qed.

Lemma progress_shown_iff_generating_witness :
  Page.exec Page.mount PageSamples.generate_and_complete <> None /\
  forall st,
    Page.exec Page.mount PageSamples.generate_and_complete = Some st ->
    Page.showProgress st =
      match Page.generatingQuestion st with
      | Some _ => true
      | None => false
      end.
Proof.
  split; [intros E; vm_compute in E; discriminate|].
  intros st E. exact (progress_shown_iff_generating _ _ E).
Defined.

Lemma view_video_is_unreachable_witness :
  Page.exec Page.mount PageSamples.generate_and_complete <> None /\
  forall st,
    Page.exec Page.mount PageSamples.generate_and_complete = Some st ->
    Page.hasVideo st "Q1" = false.
Proof.
  split; [intros E; vm_compute in E; discriminate|].
  intros st E.
  exact (proj1 (proj2 (proj2 (view_video_is_unreachable _ _ "Q1" E)))).
Defined.

Lemma page_calls_step st ev st' :
  Page.step st ev = Some st' ->
  (count Page.is_get_questions (Page.trace st') =
     count Page.is_get_questions (Page.trace st) +
     if Page.is_video_complete ev then 1 else 0)%nat /\
  (count Page.is_completed_toast (Page.trace st') =
     count Page.is_completed_toast (Page.trace st) +
     if Page.is_video_complete ev then 1 else 0)%nat /\
  (Page.is_video_complete ev = true ->
   Page.loading st' = true /\ Page.showProgress st' = false).
Proof.
  destruct ev as [r|q|r|s|msg|q|qid r];
    cbn [Page.step Page.is_video_complete].
  - destruct (Page.pendingLoads st); [discriminate|]. intros [= <-].
    unfold Page.loadQuestions_resume.
    destruct r as [qs|e]; page_fields;
      rewrite ?ApiProps.count_app; cbn; repeat split; try lia; discriminate.
  - destruct (_ && _ && _); [|discriminate]. intros [= <-].
    unfold Page.handleGenerateVideo_enter. page_fields.
    rewrite ?ApiProps.count_app; cbn; repeat split; try lia; discriminate.
  - destruct (Page.pendingGenerates st); [discriminate|]. intros [= <-].
    unfold Page.handleGenerateVideo_resume.
    destruct r as [resp|e];
      [destruct (Page.gen_status resp =? "started")%string;
       [|destruct (Page.gen_status resp =? "already_exists")%string]|];
      page_fields; rewrite ?ApiProps.count_app; cbn;
      repeat split; try lia; discriminate.
  - intros [= <-].
    unfold Page.handleVideoComplete, Page.loadQuestions_enter. page_fields.
    rewrite ?ApiProps.count_app; cbn; repeat split; lia.
  - intros [= <-]. unfold Page.handleVideoError. page_fields.
    rewrite ?ApiProps.count_app; cbn; repeat split; try lia; discriminate.
  - destruct (_ && _); [|discriminate]. intros [= <-].
    unfold Page.handleViewVideo_enter. page_fields.
    rewrite ?ApiProps.count_app; cbn; repeat split; try lia; discriminate.
  - destruct (existsb _ _); [|discriminate]. intros [= <-].
    unfold Page.handleViewVideo_resume.
    destruct r as [pv|e]; page_fields;
      rewrite ?ApiProps.count_app; cbn; repeat split; try lia; discriminate.
Qed.

Lemma page_calls_exec evs : forall st st',
  Page.exec st evs = Some st' ->
  (count Page.is_get_questions (Page.trace st') =
     count Page.is_get_questions (Page.trace st) +
     count Page.is_video_complete evs)%nat /\
  (count Page.is_completed_toast (Page.trace st') =
     count Page.is_completed_toast (Page.trace st) +
     count Page.is_video_complete evs)%nat.
Proof.
  induction evs as [|ev evs IH]; intros st st'; cbn [Page.exec].
  - intros [= <-]. cbn. split; lia.
  - destruct (Page.step st ev) as [st1|] eqn:Hstep; [|discriminate].
    intros Hexec.
    destruct (page_calls_step _ _ _ Hstep) as (S1 & S2 & _).
    destruct (IH _ _ Hexec) as (E1 & E2).
    rewrite E1, E2, S1, S2, count_cons. split; lia.
Qed.

(** X17.  On [QuestionsPage] every call of [onComplete] by the component
    shows one ['Video generation completed!'] toast and starts one reload
    of the questions, which puts the page back into its loading state and
    hides the progress panel: the questions are requested once on mount
    and once more for each call. *)
Theorem every_completion_call_reloads_the_questions
  (evs : list Page.Event) (st : Page.State) (s : VideoStatusResponse) :
  Page.exec Page.mount evs = Some st ->
  count Page.is_get_questions (Page.trace st) =
    S (count Page.is_video_complete evs) /\
  count Page.is_completed_toast (Page.trace st) =
    count Page.is_video_complete evs /\
  Page.loading (Page.handleVideoComplete s st) = true /\
  Page.showProgress (Page.handleVideoComplete s st) = false /\
  Page.step st (Page.VideoComplete s) = Some (Page.handleVideoComplete s st).
Proof.
  intros H. destruct (page_calls_exec _ _ _ H) as [H1 H2].
  split; [exact H1|]. split; [exact H2|].
  destruct (page_calls_step st (Page.VideoComplete s) _ eq_refl)
    as (_ & _ & H3).
  destruct (H3 eq_refl) as [Hl Hp].
  repeat split; assumption.
Qed.

Lemma every_completion_call_reloads_the_questions_witness :
  Page.exec Page.mount PageSamples.generate_and_complete <> None /\
  forall st,
    Page.exec Page.mount PageSamples.generate_and_complete = Some st ->
    count Page.is_get_questions (Page.trace st) =
      S (count Page.is_video_complete PageSamples.generate_and_complete).
Proof.
  split; [intros E; vm_compute in E; discriminate|].
  intros st E.
  exact (proj1 (every_completion_call_reloads_the_questions _ st
                  Samples.completed100 E)).
Defined.

(** X18.  Over JavaScript numbers: every run of [pollVideoStatus] begins
    with a read, and every further read follows exactly one [setTimeout].
    When all reads succeed, every delay is the [interval] parameter, and the
    run is still polling after the answers [ss] exactly when none of them
    was ['completed'] or ['failed'] and [attempts >= maxAttempts] was false
    at each of the attempts 1 to [length ss]. *)
Theorem healthy_reads_recur_at_interval
  (Math_pow times : Js.Number -> Js.Number -> Js.Number)
  (maxAttempts interval : Js.Number)
  (rs : list ReadResult) (ss : list VideoStatusResponse) :
  (let st := Js.pollVideoStatus maxAttempts interval Math_pow times rs in
   (exists t, Js.trace st = Js.GetVideoStatus :: t) /\
   count Js.is_read (Js.trace st) = S (length (Js.delays (Js.trace st)))) /\
  (let st := Js.pollVideoStatus maxAttempts interval Math_pow times
               (map Fulfilled ss) in
   Js.delays (Js.trace st) =
     repeat interval (count Js.is_read (Js.trace st) - 1) /\
   (Js.settled st = None <->
    forallb Js.keeps_polling (map Fulfilled ss) = true /\
    forall k, (1 <= k <= length ss)%nat ->
              Js.leb maxAttempts (Js.of_nat k) = false)).
Proof.
  unfold Js.pollVideoStatus.
  change (Js.start) with (Js.mkPoll 1 None 1 0 [Js.GetVideoStatus]).
  split; cbn zeta.
  - destruct (JsProps.run_prefix maxAttempts interval Math_pow times rs
                (Js.mkPoll 1 None 1 0 [Js.GetVideoStatus])) as [t Ht].
    destruct (JsProps.run_shape maxAttempts interval Math_pow times rs 1
                [Js.GetVideoStatus]) as (Hc & Hle & _).
    pose proof (JsProps.run_delay_count maxAttempts interval Math_pow times rs 1
                  [Js.GetVideoStatus]) as Hd.
    cbn zeta in Hd. split.
    + exists t. exact Ht.
    + rewrite Hc, Hd. cbn. lia.
  - destruct (JsProps.run_shape maxAttempts interval Math_pow times
                (map Fulfilled ss) 1 [Js.GetVideoStatus]) as (Hc & Hle & _).
    pose proof (JsProps.healthy_run_delays maxAttempts interval Math_pow times
                  ss 1 [Js.GetVideoStatus]) as Hd.
    cbn zeta in Hd. split.
    + rewrite Hd, Hc. cbn [Js.delays Js.delay_of app].
      f_equal. cbn. lia.
    + rewrite JsProps.run_unsettled_iff. rewrite length_map.
      split; intros [Hall Hk]; (split; [exact Hall|]); intros k Hlt.
      * destruct k as [|k]; [lia|].
        replace (S k) with (1 + k)%nat by lia. apply Hk. lia.
      * apply Hk. lia.
Qed.

End Extras.
